(** * Rotating batch-analysis engine: a shallow embedding

    The repository holds three variants of one program: [api_utils.py]
    (threshold classifier with margin-based risk adjustment), [web.py]
    (threshold classifier, no risk adjustment) and [test.py] (indicator
    thresholds).  Each variant is embedded in a module named after its file;
    the definitions keep the names of the Python functions they translate.

    Conventions of the embedding:
    - a Python call that may raise returns a [result]: [Ret v] or [Raise e];
    - a float is an exact rational or one of the IEEE special values
      (rounding error and the sign of zero are not represented);
    - the body of a k-line response is a decoded JSON document, a [json]
      value, with Python strings as byte strings; the items of the
      contract-detail response and the k-line payload of test.py are taken
      at the provider's schema;
    - the scheduler threads its cache, a batch counter and the log of what
      it persisted, published and slept; [while True] is cut after a given
      number of passes;
    - the network, the [ta] indicators and the scikit-learn classifier are
      not part of the repository: the outcome of a request is an argument,
      and the string parsers and the classifier pipeline are the fields of
      the class [Externals]; pandas' [ewm] kernel and urllib3's retry loop
      are written out from their documented behaviour. *)

From Stdlib Require Import ZArith QArith Qabs Qround Qminmax Lia Lqa.
From stdpp Require Import gmap strings list pretty.

Open Scope string_scope.
Open Scope list_scope.

(** ** Python exceptions and fallible computations *)

Inductive exn : Set :=
  | TimeoutError | ClientError | HTTPError | MaxRetryError | JSONDecodeError
  | KeyError | IndexError | ValueError | TypeError | AttributeError
  | OverflowError | ZeroDivisionError.

Inductive result (A : Type) : Type :=
  | Ret (a : A)
  | Raise (e : exn).
Arguments Ret {A} a.
Arguments Raise {A} e.

#[global] Instance result_ret : MRet result := fun A a => Ret a.
#[global] Instance result_bind : MBind result := fun A B k m =>
  match m with
  | Ret a => k a
  | Raise e => Raise e
  end.

(** [try: m except: h] is Python's [try ... except Exception: h]; every
    member of [exn] derives from [Exception]. *)
Definition try_except {A} (m : result A) (h : A) : A :=
  match m with
  | Ret a => a
  | Raise _ => h
  end.

(** A list comprehension whose element expression may raise: evaluation
    goes left to right and stops at the first exception. *)
Fixpoint comprehension {A B} (f : A -> result B) (l : list A) : result (list B) :=
  match l with
  | [] => Ret []
  | x :: l' => y ← f x; ys ← comprehension f l'; Ret (y :: ys)
  end.

Definition raises {A} (m : result A) : Prop := exists e, m = Raise e.
Definition returns {A} (m : result A) : Prop := exists a, m = Ret a.

(** ** Floats *)

Inductive float : Set :=
  | NaN
  | PInf
  | NInf
  | Fin (q : Q).

Definition Qsgn (q : Q) : Z := Z.sgn (Qnum q).

Definition fneg (x : float) : float :=
  match x with
  | NaN => NaN
  | PInf => NInf
  | NInf => PInf
  | Fin q => Fin (- q)
  end.

Definition fadd (x y : float) : float :=
  match x, y with
  | NaN, _ | _, NaN => NaN
  | PInf, NInf | NInf, PInf => NaN
  | PInf, _ | _, PInf => PInf
  | NInf, _ | _, NInf => NInf
  | Fin a, Fin b => Fin (a + b)
  end.

Definition fsub (x y : float) : float := fadd x (fneg y).

Definition finf (s : Z) : float :=
  match s with
  | Z0 => NaN
  | Zpos _ => PInf
  | Zneg _ => NInf
  end.

Definition fsgn (x : float) : Z :=
  match x with
  | NaN => 0
  | PInf => 1
  | NInf => -1
  | Fin q => Qsgn q
  end.

Definition fmul (x y : float) : float :=
  match x, y with
  | NaN, _ | _, NaN => NaN
  | Fin a, Fin b => Fin (a * b)
  | _, _ => finf (fsgn x * fsgn y)
  end.

(** numpy division: no exception, a zero divisor gives an infinity or NaN. *)
Definition fdiv (x y : float) : float :=
  match x, y with
  | NaN, _ | _, NaN => NaN
  | Fin a, Fin b => if Qeq_bool b 0 then finf (Qsgn a) else Fin (a / b)
  | Fin _, _ => Fin 0
  | _, Fin b => finf (fsgn x * (if Qeq_bool b 0 then 1 else Qsgn b))
  | _, _ => NaN
  end.

Definition fabs (x : float) : float :=
  match x with
  | NaN => NaN
  | PInf | NInf => PInf
  | Fin q => Fin (Qabs q)
  end.

(** [x > y]; false as soon as one side is NaN. *)
Definition fgt (x y : float) : bool :=
  match x, y with
  | NaN, _ | _, NaN => false
  | PInf, PInf => false
  | PInf, _ => true
  | _, PInf => false
  | NInf, _ => false
  | Fin _, NInf => true
  | Fin a, Fin b => if Qlt_le_dec b a then true else false
  end.

(** [x != y]; NaN differs from everything, itself included. *)
Definition fne (x y : float) : bool :=
  match x, y with
  | NaN, _ | _, NaN => true
  | PInf, PInf | NInf, NInf => false
  | Fin a, Fin b => negb (Qeq_bool a b)
  | _, _ => true
  end.

Definition isnan (x : float) : bool :=
  match x with NaN => true | _ => false end.

(** Equality of floats as values: rationals are compared by [Qeq]. *)
Definition feq (x y : float) : Prop :=
  match x, y with
  | NaN, NaN | PInf, PInf | NInf, NInf => True
  | Fin a, Fin b => a == b
  | _, _ => False
  end.

Definition Fz (z : Z) : float := Fin (inject_Z z).

(** ** Decoded JSON documents

    [JObj] lists the items of the decoded dict, so its keys are distinct. *)

Inductive json : Type :=
  | JNull
  | JBool (b : bool)
  | JInt (z : Z)
  | JFloat (x : float)
  | JStr (s : string)
  | JArr (l : list json)
  | JObj (members : list (string * json)).

Fixpoint assoc {V} (k : string) (m : list (string * V)) : option V :=
  match m with
  | [] => None
  | (k', v) :: m' => if String.eqb k k' then Some v else assoc k m'
  end.

Definition chars (s : string) : list json :=
  (fun c => JStr (String c EmptyString)) <$> String.list_ascii_of_string s.

(** [d.get(key, dflt)]: a method of dicts only. *)
Definition py_get (d : json) (key : string) (dflt : json) : result json :=
  match d with
  | JObj m => Ret (default dflt (assoc key m))
  | _ => Raise AttributeError
  end.

(** ** Python built-ins on decoded JSON *)

(** What lies outside the repository: the string parsers behind [int(s)]
    and [float(s)], and the classifier pipeline of the threshold variants
    (the [ta] indicators, the feature frame and scikit-learn's
    [LogisticRegression().fit(X, y)] followed by [predict_proba], lines
    104-117 of api_utils.py and 89-102 of web.py), which maps the decoded
    bars to P(up) or raises. *)
Record Bar : Type := mkBar
  { timestamp : Z; open : float; high : float; low : float;
    close : float; volume : float }.

Class Externals : Type :=
  { int_of_str : string -> option Z;
    float_of_str : string -> option float;
    predict_up : list Bar -> result float }.

(** [bool(v)] *)
Definition truthy (v : json) : bool :=
  match v with
  | JNull => false
  | JBool b => b
  | JInt z => negb (Z.eqb z 0)
  | JFloat (Fin q) => negb (Qeq_bool q 0)
  | JFloat _ => true
  | JStr s => negb (String.eqb s "")
  | JArr l => match l with [] => false | _ => true end
  | JObj m => match m with [] => false | _ => true end
  end.

(** [for k in v]: lists give their elements, dicts their keys, strings
    their characters; the other values are not iterable. *)
Definition py_iter (v : json) : result (list json) :=
  match v with
  | JArr l => Ret l
  | JObj m => Ret ((fun kv => JStr (fst kv)) <$> m)
  | JStr s => Ret (chars s)
  | _ => Raise TypeError
  end.

(** [v[i]] for a literal index [i >= 0]. *)
Definition getitem (v : json) (i : nat) : result json :=
  match v with
  | JArr l => match l !! i with Some x => Ret x | None => Raise IndexError end
  | JStr s => match chars s !! i with Some x => Ret x | None => Raise IndexError end
  | JObj _ => Raise KeyError
  | _ => Raise TypeError
  end.

(** [v[key]] for a string key. *)
Definition getitem_str (v : json) (key : string) : result json :=
  match v with
  | JObj m => match assoc key m with Some x => Ret x | None => Raise KeyError end
  | _ => Raise TypeError
  end.

Definition is_str (key : string) (v : json) : bool :=
  match v with JStr s => String.eqb key s | _ => false end.

Definition is_substring (key s : string) : bool :=
  match String.index 0 key s with Some _ => true | None => false end.

(** [key in v] for a string key. *)
Definition contains (key : string) (v : json) : result bool :=
  match v with
  | JObj m => Ret (match assoc key m with Some _ => true | None => false end)
  | JArr l => Ret (existsb (is_str key) l)
  | JStr s => Ret (is_substring key s)
  | _ => Raise TypeError
  end.

Definition Qtrunc (q : Q) : Z := Z.quot (Qnum q) (Zpos (Qden q)).

Section Conversions.
Context `{!Externals}.

(** [int(v)] *)
Definition py_int (v : json) : result Z :=
  match v with
  | JBool b => Ret (if b then 1 else 0)%Z
  | JInt z => Ret z
  | JFloat (Fin q) => Ret (Qtrunc q)
  | JFloat NaN => Raise ValueError
  | JFloat _ => Raise OverflowError
  | JStr s => match int_of_str s with Some z => Ret z | None => Raise ValueError end
  | _ => Raise TypeError
  end.

(** [float(v)] *)
Definition py_float (v : json) : result float :=
  match v with
  | JBool b => Ret (Fz (if b then 1 else 0))
  | JInt z => Ret (Fz z)
  | JFloat x => Ret x
  | JStr s => match float_of_str s with Some x => Ret x | None => Raise ValueError end
  | _ => Raise TypeError
  end.

(** The dict built for one k-line row [k]: the six fields are converted
    in the order in which the dict display lists them. *)
Definition decode_row (k : json) : result Bar :=
  k0 ← getitem k 0; t ← py_int k0;
  k1 ← getitem k 1; o ← py_float k1;
  k2 ← getitem k 2; h ← py_float k2;
  k3 ← getitem k 3; l ← py_float k3;
  k4 ← getitem k 4; c ← py_float k4;
  k5 ← getitem k 5; v ← py_float k5;
  Ret (mkBar (t / 1000)%Z o h l c v).
End Conversions.

(** ** Published result strings *)

Definition round_half_even (q : Q) : Z :=
  let f := Qfloor q in
  match ((q - inject_Z f) ?= (1 # 2))%Q with
  | Lt => f
  | Gt => (f + 1)%Z
  | Eq => if Z.even f then f else (f + 1)%Z
  end.

Definition digits (z : Z) : string := pretty (Z.to_N z).

(** [f"{x:.1f}"] *)
Definition format_1f (x : float) : string :=
  match x with
  | NaN => "nan"
  | PInf => "inf"
  | NInf => "-inf"
  | Fin q =>
      let t := Z.abs (round_half_even (q * 10)%Q) in
      ((if Qlt_le_dec q 0%Q then "-" else "") ++
       digits (t / 10) ++ "." ++ digits (t mod 10))%string
  end.

Inductive Signal : Type :=
  | Pending
  | NoResponse
  | RequestFailed
  | InsufficientData
  | AnalysisFailed
  | Long (pct : float)
  | Short (pct : float)
  | NoRecommendation (pct : float).

(** The string the threshold variants store and publish for a signal. *)
Definition render (s : Signal) : string :=
  match s with
  | Pending => "⚪ 분석중"
  | NoResponse => "⚪ 응답 없음"
  | RequestFailed => "⚪ 요청 실패"
  | InsufficientData => "⚪ 데이터 부족"
  | AnalysisFailed => "⚪ 분석 실패"
  | Long p => ("🟢 Long (" ++ format_1f p ++ "%)")%string
  | Short p => ("🔴 Short (" ++ format_1f p ++ "%)")%string
  | NoRecommendation p => ("⚪ 비추천 (" ++ format_1f p ++ "%)")%string
  end.

Definition flt (x y : float) : bool := fgt y x.

(** ** Contract metadata, at the provider's schema

    One item of the [data] array of [GET /contract/detail]; an absent member
    is [None]. *)
Record Tier : Type := mkTier { mmr : option float; imr : option float }.

Record Item : Type := mkItem
  { symbol : option string;
    quoteCoin : option string;
    riskLimitCustom : list Tier;
    maintenanceMarginRate : option float;
    initialMarginRate : option float }.

(** The outcome of the request to the contract-detail endpoint: [Raise e]
    when the request, the status check or the decoding of the body failed,
    otherwise the [data] member of the body ([None] when the body has none). *)
Definition detail_response : Type := result (option (list Item)).

(** Python dicts whose iteration order matters are association lists in
    insertion order; [d[k] = v] keeps the position of an existing key. *)
Fixpoint dict_set {V} (k : string) (v : V) (d : list (string * V)) : list (string * V) :=
  match d with
  | [] => [(k, v)]
  | (k', v') :: d' =>
      if String.eqb k k' then (k, v) :: d' else (k', v') :: dict_set k v d'
  end.

Definition keys {V} (d : list (string * V)) : list string := fst <$> d.

(** [range(0, stop, step)] for a positive step, unrolled at most [fuel]
    times; [stop] iterations always suffice. *)
Fixpoint range_from (fuel i stop step : nat) : list nat :=
  match fuel with
  | O => []
  | S fuel' => if (i <? stop)%nat then i :: range_from fuel' (i + step) stop step else []
  end.

(** [range(0, stop, step)]: a zero step is a [ValueError]. *)
Definition py_range (stop step : nat) : result (list nat) :=
  if (step =? 0)%nat then Raise ValueError else Ret (range_from stop 0 stop step).

(** [l[i:j]] for [0 <= i <= j]. *)
Definition slice {A} (l : list A) (i j : nat) : list A := take (j - i) (drop i l).

(** What the scheduler does to the outside world. *)
Inductive event : Type :=
  | Persisted (snapshot : gmap string string)
  | Emitted (results : list (string * string))
  | Slept (seconds : nat).

Record state : Type := mkState
  { cache : gmap string string;
    tick : nat;
    log : list event }.

(** The HTTP exchange of the fetch of [symbol] during the [tick]-th batch:
    [Raise e] when [session.get] or [resp.json()] raised (transport error,
    timeout, body that is not JSON), otherwise the decoded body. *)
Definition network : Type := nat -> string -> result json.

(** [for s, r in results: cache[s] = r] *)
Definition merge_results (results : list (string * string)) (c : gmap string string)
  : gmap string string :=
  foldl (fun c sr => <[sr.1 := sr.2]> c) c results.

(** A computation of the scheduler: the state it leaves and the exception
    that escaped it, if any. *)
Definition outcome : Type := state * option exn.

Definition endswith (s suffix : string) : bool :=
  let n := String.length s in
  let m := String.length suffix in
  (m <=? n)%nat && String.eqb (String.substring (n - m) m s) suffix.

Definition is_USDT (q : option string) : bool :=
  match q with Some s => String.eqb s "USDT" | None => false end.

Definition f0_85 : float := Fin (85 # 100).
Definition f0_15 : float := Fin (15 # 100).

(** * api_utils.py *)
Module api_utils.

(** Module state after the bootstrap of lines 66-78; [requests] counts
    the calls of [requests.get] and [printed] lists the errors printed. *)
Record boot : Type := mkBoot
  { detail_map : list (string * Item);
    SYMBOLS : list string;
    requests : nat;
    printed : list exn }.

(** The [for item in items] loop, threading [detail_map]. *)
Fixpoint collect (items : list Item) (dm : list (string * Item))
  : list (string * Item) * result unit :=
  match items with
  | [] => (dm, Ret tt)
  | item :: rest =>
      if is_USDT (quoteCoin item) then
        match symbol item with
        | Some s => collect rest (dict_set s item dm)
        | None => (dm, Raise KeyError)
        end
      else collect rest dm
  end.

Definition bootstrap (resp : detail_response) : boot :=
  match resp with
  | Raise e => mkBoot [] [] 1 [e]
  | Ret data =>
      let items := default [] data in
      match collect items [] with
      | (dm, Ret _) => mkBoot dm (keys dm) 1 []
      | (dm, Raise e) => mkBoot dm [] 1 [e]
      end
  end.

Section Engine.
Context `{!Externals}.
Variable B : boot.

(** Lines 119-130: the margin rates of the symbol and the adjusted score. *)
Definition rates (sym : string) : float * float :=
  let detail := assoc sym (detail_map B) in
  let risk_list := match detail with Some d => riskLimitCustom d | None => [] end in
  match risk_list with
  | t :: _ => (default (Fz 0) (mmr t), default (Fz 0) (imr t))
  | [] =>
      (default (Fz 0) (detail ≫= maintenanceMarginRate),
       default (Fz 0) (detail ≫= initialMarginRate))
  end.

Definition adjust (sym : string) (prob : float) : float :=
  let '(m, i) := rates sym in
  let total_risk := fadd m i in
  fmul prob (fsub (Fz 1) total_risk).

(** Lines 132-137. *)
Definition classify (adjusted : float) : Signal :=
  if fgt adjusted f0_85 then Long (fmul adjusted (Fz 100))
  else if flt adjusted f0_15 then Short (fmul (fsub (Fz 1) adjusted) (Fz 100))
  else NoRecommendation (fmul adjusted (Fz 100)).

(** The body of the [try] of lines 82-98: an early [return] or the frame. *)
Definition fetch (response : result json) : result (Signal + list Bar) :=
  data ← response;
  rows ← py_get data "data" (JArr []);
  if negb (truthy rows) then Ret (inl NoResponse)
  else ks ← py_iter rows; df ← comprehension decode_row ks; Ret (inr df).

Definition fetch_kline (response : result json) (sym : string)
  : result (string * string) :=
  match fetch response with
  | Raise _ => Ret (sym, render RequestFailed)
  | Ret (inl s) => Ret (sym, render s)
  | Ret (inr df) =>
      if (length df <? 25)%nat then Ret (sym, render InsufficientData)
      else
        prob ← predict_up df;
        Ret (sym, render (classify (adjust sym prob)))
  end.

Variable net : network.
Variables (group_size interval : nat).

(** [cache[s]] *)
Definition subscript (c : gmap string string) (s : string)
  : result (string * string) :=
  match c !! s with Some r => Ret (s, r) | None => Raise KeyError end.

(** Lines 146-153: one iteration of the [for] loop.  [asyncio.gather]
    returns the results in the order of the batch, or raises what a task
    raised; the write of the cache file and the emit are taken to succeed. *)
Definition batch_body (i : nat) (st : state) : outcome :=
  let batch := slice (SYMBOLS B) i (i + group_size) in
  let t := tick st in
  match comprehension (fun s => fetch_kline (net t s) s) batch with
  | Raise e => (mkState (cache st) (S t) (log st), Some e)
  | Ret results =>
      let c := merge_results results (cache st) in
      let persisted := log st ++ [Persisted c] in
      match comprehension (subscript c) (SYMBOLS B) with
      | Raise e => (mkState c (S t) persisted, Some e)
      | Ret ordered =>
          (mkState c (S t) (persisted ++ [Emitted ordered; Slept interval]), None)
      end
  end.

Fixpoint for_loop (indices : list nat) (st : state) : outcome :=
  match indices with
  | [] => (st, None)
  | i :: rest =>
      match batch_body i st with
      | (st', None) => for_loop rest st'
      | stop => stop
      end
  end.

Definition one_pass (st : state) : outcome :=
  match py_range (length (SYMBOLS B)) group_size with
  | Raise e => (st, Some e)
  | Ret indices => for_loop indices st
  end.

(** [while True], cut after [passes] passes. *)
Fixpoint while_true (passes : nat) (st : state) : outcome :=
  match passes with
  | O => (st, None)
  | S n =>
      match one_pass st with
      | (st', None) => while_true n st'
      | stop => stop
      end
  end.

(** Lines 142-143. *)
Definition setdefaults (c : gmap string string) : gmap string string :=
  foldl (fun c s => match c !! s with
                    | Some _ => c
                    | None => <[s := render Pending]> c
                    end) c (SYMBOLS B).

(** [loaded] is the cache at the time the scheduler starts: the content
    of the cache file when there is one, else empty. *)
Definition start (loaded : gmap string string) : state :=
  mkState (setdefaults loaded) 0 [].

Definition rotating_analysis (loaded : gmap string string) (passes : nat) : outcome :=
  while_true passes (start loaded).

(** [on_connect]: what a connecting client is sent. *)
Definition on_connect (c : gmap string string) : list (string * string) :=
  (fun s => (s, default (render Pending) (c !! s))) <$> SYMBOLS B.
End Engine.

(** The scheduler as the main block starts it (line 168), with the
    defaults [group_size=30] and [interval=60] of its signature. *)
Definition main `{!Externals} (B : boot) (net : network)
    (loaded : gmap string string) (passes : nat) : outcome :=
  rotating_analysis B net 30 60 loaded passes.
End api_utils.

(** * web.py *)
Module web.

(** Lines 154-155 of the main block; nothing catches what they raise. *)
Fixpoint select (items : list Item) : result (list string) :=
  match items with
  | [] => Ret []
  | item :: rest =>
      if is_USDT (quoteCoin item) then
        match symbol item with
        | Some s => l ← select rest; Ret (s :: l)
        | None => Raise KeyError
        end
      else select rest
  end.

Definition load_symbols (resp : detail_response) : result (list string) :=
  data ← resp;
  match data with
  | Some items => select items
  | None => Raise KeyError
  end.

Section Engine.
Context `{!Externals}.
Variable SYMBOLS : list string.

(** Lines 103-108. *)
Definition classify (prob : float) : Signal :=
  if fgt prob f0_85 then Long (fmul prob (Fz 100))
  else if flt prob f0_15 then Short (fmul (fsub (Fz 1) prob) (Fz 100))
  else NoRecommendation (fmul prob (Fz 100)).

(** The body of the first [try] (lines 70-82). *)
Definition fetch (response : result json) : result (Signal + list Bar) :=
  data ← response;
  present ← contains "data" data;
  if negb present then Ret (inl NoResponse)
  else
    d ← getitem_str data "data";
    ks ← py_iter d;
    rows ← comprehension decode_row ks;
    Ret (inr rows).

(** The body of the second [try] (lines 87-108). *)
Definition analyse (df : list Bar) : result Signal :=
  if (length df <? 25)%nat then Ret InsufficientData
  else prob ← predict_up df; Ret (classify prob).

Definition fetch_kline (response : result json) (sym : string) : string * string :=
  match fetch response with
  | Raise _ => (sym, render RequestFailed)
  | Ret (inl s) => (sym, render s)
  | Ret (inr df) =>
      match analyse df with
      | Raise _ => (sym, render AnalysisFailed)
      | Ret s => (sym, render s)
      end
  end.

Variable net : network.
Variables (group_size interval : nat).

(** Lines 118-131: one iteration of the [for] loop; the write of the
    cache file and the emit are taken to succeed. *)
Definition batch_body (i : nat) (st : state) : state :=
  let group := slice SYMBOLS i (i + group_size) in
  let t := tick st in
  let results := (fun s => fetch_kline (net t s) s) <$> group in
  let c := merge_results results (cache st) in
  let ordered := (fun s => (s, default (render Pending) (c !! s))) <$> SYMBOLS in
  mkState c (S t) (log st ++ [Persisted c; Emitted ordered; Slept interval]).

Definition for_loop (indices : list nat) (st : state) : state :=
  foldl (fun st i => batch_body i st) st indices.

Definition one_pass (st : state) : outcome :=
  match py_range (length SYMBOLS) group_size with
  | Raise e => (st, Some e)
  | Ret indices => (for_loop indices st, None)
  end.

Fixpoint while_true (passes : nat) (st : state) : outcome :=
  match passes with
  | O => (st, None)
  | S n =>
      match one_pass st with
      | (st', None) => while_true n st'
      | stop => stop
      end
  end.

Definition start (loaded : gmap string string) : state := mkState loaded 0 [].

Definition rotating_analysis (loaded : gmap string string) (passes : nat) : outcome :=
  while_true passes (start loaded).

Definition on_connect (c : gmap string string) : list (string * string) :=
  (fun s => (s, default (render Pending) (c !! s))) <$> SYMBOLS.
End Engine.

(** The scheduler as the main block starts it (line 158), with the
    defaults [group_size=30] and [interval=60] of its signature. *)
Definition main `{!Externals} (SYMBOLS : list string) (net : network)
    (loaded : gmap string string) (passes : nat) : outcome :=
  rotating_analysis SYMBOLS net 30 60 loaded passes.
End web.

(** ** pandas series operations used by test.py

    A series is the list of its values; NaN marks a missing value. *)

(** [series.diff()] *)
Definition diff (s : list float) : list float :=
  match s with
  | [] => []
  | _ :: s' => NaN :: zip_with fsub s' s
  end.

(** [series.clip(lower=0)] and [series.clip(upper=0)] on one value. *)
Definition clip_lower0 (x : float) : float :=
  if isnan x then NaN else if fgt (Fz 0) x then Fz 0 else x.
Definition clip_upper0 (x : float) : float :=
  if isnan x then NaN else if fgt x (Fz 0) then Fz 0 else x.

(** One step of [ewm(alpha, adjust=False).mean()] (pandas' [ewm] kernel with
    [normalize], [ignore_na=False] and no minimum number of periods):
    [weighted] is the running mean, [old_wt] the weight it carries. *)
Definition ewm_step (alpha : float) (acc : float * float) (cur : float) : float * float :=
  let '(weighted, old_wt) := acc in
  if isnan weighted then
    (if isnan cur then weighted else cur, old_wt)
  else
    let old_wt := fmul old_wt (fsub (Fz 1) alpha) in
    if isnan cur then (weighted, old_wt)
    else
      let weighted :=
        if fne weighted cur
        then fdiv (fadd (fmul old_wt weighted) (fmul alpha cur)) (fadd old_wt alpha)
        else weighted in
      (weighted, Fz 1).

Fixpoint ewm_from (alpha : float) (acc : float * float) (s : list float) : list float :=
  match s with
  | [] => []
  | cur :: s' =>
      let acc' := ewm_step alpha acc cur in
      acc'.1 :: ewm_from alpha acc' s'
  end.

Definition ewm_mean (alpha : float) (s : list float) : list float :=
  match s with
  | [] => []
  | x0 :: s' => x0 :: ewm_from alpha (x0, Fz 1) s'
  end.

(** [round(x, 1)] *)
Definition round1 (x : float) : float :=
  match x with
  | Fin q => Fin (inject_Z (round_half_even (q * 10)%Q) / 10)
  | _ => x
  end.

(** [series.iloc[-1]] *)
Definition iloc_last (s : list float) : result float :=
  match last s with
  | Some x => Ret x
  | None => Raise IndexError
  end.

(** * test.py *)
Module test.

(** The fields of [urllib3.util.retry.Retry] that [create_session] sets. *)
Record Retry : Type := mkRetry
  { total : Z; read : Z; connect : Z;
    backoff_factor : Q;
    status_forcelist : list Z;
    allowed_methods : list string }.

(** A session is the adapter mounted for each URL scheme. *)
Record Session : Type := mkSession { https : Retry; http : Retry }.

Definition create_session (retries : Z) (backoff_factor : Q)
    (status_forcelist : list Z) : Session :=
  let retry := mkRetry retries retries retries backoff_factor
                       status_forcelist ["GET"] in
  mkSession retry retry.

(** [create_session()] with the defaults of its signature. *)
Definition default_session : Session := create_session 3 (3 # 10) [500; 502; 504]%Z.

(** What one transmission of a request ends in. *)
Inductive attempt : Type :=
  | ConnectError
  | ReadError
  | Status (code : Z).

(** [Retry.increment]: every retried failure costs one unit of [total],
    and of [connect] or [read] for an error of that kind. *)
Definition increment (r : Retry) (a : attempt) : Retry :=
  let r' := mkRetry (total r - 1) (read r) (connect r) (backoff_factor r)
                    (status_forcelist r) (allowed_methods r) in
  match a with
  | ConnectError =>
      mkRetry (total r') (read r') (connect r' - 1) (backoff_factor r')
              (status_forcelist r') (allowed_methods r')
  | ReadError =>
      mkRetry (total r') (read r' - 1) (connect r') (backoff_factor r')
              (status_forcelist r') (allowed_methods r')
  | Status _ => r'
  end.

(** [Retry.is_exhausted] *)
Definition is_exhausted (r : Retry) : bool :=
  (Z.min (total r) (Z.min (read r) (connect r)) <? 0)%Z.

Definition in_list {A} `{EqDecision A} (x : A) (l : list A) : bool :=
  bool_decide (x ∈ l).

(** Whether the adapter retries after this outcome of a [method] request. *)
Definition is_retry (r : Retry) (method : string) (a : attempt) : bool :=
  match a with
  | ConnectError => true
  | ReadError => in_list method (allowed_methods r)
  | Status c => in_list method (allowed_methods r) && in_list c (status_forcelist r)
  end.

Definition error_of (a : attempt) : exn :=
  match a with
  | ConnectError => ClientError
  | ReadError => TimeoutError
  | Status _ => HTTPError
  end.

(** The retry loop of the adapter: [world n] is what the [n]-th
    transmission ends in; the answer is the number of transmissions made
    and the status obtained or the exception raised.  [None]: out of
    fuel. *)
Fixpoint urlopen (fuel : nat) (r : Retry) (method : string)
    (world : nat -> attempt) (n : nat) : option (nat * result Z) :=
  match fuel with
  | O => None
  | S fuel' =>
      let a := world n in
      if is_retry r method a then
        let r' := increment r a in
        if is_exhausted r' then Some (S n, Raise MaxRetryError)
        else urlopen fuel' r' method world (S n)
      else
        match a with
        | Status c => Some (S n, Ret c)
        | _ => Some (S n, Raise (error_of a))
        end
  end.

(** [session.get(url)] over https: the loop with enough fuel for every
    unit of [total]. *)
Definition get (s : Session) (world : nat -> attempt) : option (nat * result Z) :=
  let r := https s in
  if is_exhausted r then Some (O, Raise MaxRetryError)
  else urlopen (S (Z.to_nat (total r))) r "GET" world 0.

(** [fetch_symbols], lines 39-45. *)
Fixpoint select (items : list Item) : result (list string) :=
  match items with
  | [] => Ret []
  | item :: rest =>
      match symbol item with
      | None => Raise KeyError
      | Some s =>
          if endswith s "_USDT" then l ← select rest; Ret (s :: l)
          else select rest
      end
  end.

Definition fetch_symbols (resp : detail_response) : result (list string) :=
  data ← resp;
  select (default [] data).

(** The outcome of the k-line request of [get_klines]: [Raise e] when
    [sess.get], [raise_for_status] or [resp.json()] raised or the body is
    not an object, otherwise its [data] member, an array of arrays
    ([None] when the body has none). *)
Definition kline_response : Type := result (option (list (list json))).

Section Analysis.
Context `{!Externals}.

(** [astype(float)] on one cell; a cell padded in by the frame
    constructor is [JNull]. *)
Definition astype_float (v : json) : result float :=
  match v with
  | JNull => Ret NaN
  | _ => py_float v
  end.

(** [pd.to_datetime(cell, unit='ms')] on one cell: numbers and numeric
    strings are instants, a missing value stays missing, anything else is
    refused.  The range of representable instants is not modelled. *)
Definition to_datetime (v : json) : result unit :=
  match v with
  | JNull | JInt _ | JFloat NaN | JFloat (Fin _) => Ret tt
  | JFloat _ => Raise OverflowError
  | JStr s => match float_of_str s with Some _ => Ret tt | None => Raise ValueError end
  | _ => Raise TypeError
  end.

Definition width (payload : list (list json)) : nat :=
  foldr (fun row w => Nat.max (length row) w) 0%nat payload.

Definition cell (row : list json) (i : nat) : json := default JNull (row !! i).

(** Lines 54-59: the frame has as many columns as the longest row;
    renaming its first six columns needs six of them.  The result is
    the [close] column, all that [analyze_symbol] reads of the frame; the
    other columns are converted all the same. *)
Definition get_klines (response : kline_response) : result (list float) :=
  data ← response;
  let payload := default [] data in
  if (width payload <? 6)%nat then Raise ValueError
  else
    _ ← comprehension (fun row => to_datetime (cell row 0)) payload;
    _ ← comprehension (fun row => astype_float (cell row 1)) payload;
    _ ← comprehension (fun row => astype_float (cell row 2)) payload;
    _ ← comprehension (fun row => astype_float (cell row 3)) payload;
    closes ← comprehension (fun row => astype_float (cell row 4)) payload;
    _ ← comprehension (fun row => astype_float (cell row 5)) payload;
    Ret closes.

(** Lines 62-69. *)
Definition compute_rsi (series : list float) (period : nat) : result (list float) :=
  if (period =? 0)%nat then Raise ZeroDivisionError
  else
    let alpha := Fin (1 # Pos.of_nat period) in
    let delta := diff series in
    let gain := clip_lower0 <$> delta in
    let loss := fneg <$> (clip_upper0 <$> delta) in
    let avg_gain := ewm_mean alpha gain in
    let avg_loss := ewm_mean alpha loss in
    let rs := zip_with fdiv avg_gain avg_loss in
    Ret ((fun x => fsub (Fz 100) (fdiv (Fz 100) (fadd (Fz 1) x))) <$> rs).

(** [span] as [alpha = 2 / (span + 1)]. *)
Definition span_alpha (span : positive) : float := Fin (2 # (span + 1)).

(** Lines 71-76. *)
Definition compute_macd_diff (series : list float) : list float :=
  let fast := ewm_mean (span_alpha 12) series in
  let slow := ewm_mean (span_alpha 26) series in
  let macd := zip_with fsub fast slow in
  let sig := ewm_mean (span_alpha 9) macd in
  zip_with fsub macd sig.

(** The body of the [try] of [analyze_symbol]. *)
Definition analyse (response : kline_response) : result (string * float) :=
  close ← get_klines response;
  r ← compute_rsi close 14;
  rsi ← iloc_last r;
  macd_diff ← iloc_last (compute_macd_diff close);
  let signal := if fgt macd_diff (Fz 0) then "롱" else "숏" in
  let strength := fmul (fdiv (fabs (fsub rsi (Fz 50))) (Fz 50)) (Fz 100) in
  let rate := round1 strength in
  Ret (signal, rate).

(** Lines 79-93. *)
Definition analyze_symbol (response : kline_response) (sym : string)
  : string * string * float :=
  match analyse response with
  | Ret (signal, rate) => (sym, signal, rate)
  | Raise _ => (sym, "롱", Fz 0)
  end.

(** Lines 98-106, one turn of the [while True] loop.  [order] is the
    order in which the futures complete; [results_cache] is a dict in
    insertion order and [slept] the seconds slept so far.  The k-line
    exchange of a symbol in the cycle numbered [tick] is [net tick]. *)
Definition cycle_delay : nat := 60.

Record shared : Type := mkShared
  { results_cache : list (string * (string * float));
    cycles : nat;
    slept : list nat }.

Definition batch_update_cycle (net : nat -> string -> kline_response)
    (order : list string) (st : shared) : shared :=
  let store rc sym :=
    let '(s, sig, rate) := analyze_symbol (net (cycles st) sym) sym in
    dict_set s (sig, rate) rc in
  mkShared (foldl store (results_cache st) order)
           (S (cycles st))
           (slept st ++ [cycle_delay]).

(** Lines 169-172: the rows served by [/api/results]. *)
Definition api_results (st : shared) : list (string * string * float) :=
  (fun kv => (kv.1, kv.2.1, kv.2.2)) <$> results_cache st.
End Analysis.
End test.

(** ** Concrete worlds for the examples *)

(** No string denotes a number (the provider sends JSON numbers) and the
    classifier pipeline answers [p]. *)
Definition numbers_only (p : list Bar -> result float) : Externals :=
  {| int_of_str := fun _ => None;
     float_of_str := fun _ => None;
     predict_up := p |}.

(** A well-formed k-line row with the given close. *)
Definition row_of (t : Z) (c : Z) : json :=
  JArr [JInt t; JInt c; JInt c; JInt c; JInt c; JInt 1].

(** A field that [int] (index 0) or [float] (the other indices) rejects
    for what it is: null, a nested value, or a string that is no number. *)
Definition non_numeric `{!Externals} (i : nat) (v : json) : Prop :=
  match v with
  | JNull | JArr _ | JObj _ => True
  | JStr s => if (i =? 0)%nat then int_of_str s = None else float_of_str s = None
  | _ => False
  end.

(** A malformed k-line row: fewer than six fields, or a non-numeric field
    among the six. *)
Definition malformed `{!Externals} (k : json) : Prop :=
  exists l, k = JArr l /\
    ((length l < 6)%nat \/
     exists i x, (i < 6)%nat /\ l !! i = Some x /\ non_numeric i x).

(** A k-line body of [n] well-formed rows with rising closes. *)
Definition rising_rows (n : nat) : list json :=
  (fun i => row_of (60000 * Z.of_nat i) (100 + Z.of_nat i)) <$> seq 0 n.

Definition kline_body (rows : list json) : json :=
  JObj [("success", JBool true); ("code", JInt 0); ("data", JArr rows)].

(** A contract item with one risk tier. *)
Definition contract (sym quote : string) (m i : Q) : Item :=
  mkItem (Some sym) (Some quote) [mkTier (Some (Fin m)) (Some (Fin i))]
         (Some (Fin (1 # 2))) (Some (Fin (1 # 2))).

(** The frame decoded from well-formed rows. *)
Definition decoded `{!Externals} (rows : list json) : list Bar :=
  match comprehension decode_row rows with
  | Ret df => df
  | Raise _ => []
  end.

(** The symbols of the contracts quoted in USDT, in the order of the
    provider's response. *)
Definition usdt_symbols (items : list Item) : list string :=
  omap symbol (filter (fun it => is_USDT (quoteCoin it) = true) items).

(** The symbols that end in [_USDT], in the order of the response. *)
Definition suffix_symbols (items : list Item) : list string :=
  filter (fun s => endswith s "_USDT" = true) (omap symbol items).

(** The effect of [d[k] = v] on the key order of a dict. *)
Definition add_key (ks : list string) (k : string) : list string :=
  if decide (k ∈ ks) then ks else ks ++ [k].

(** Every contract quoted in USDT carries a symbol. *)
Definition usdt_have_symbols (items : list Item) : Prop :=
  Forall (fun it => is_USDT (quoteCoin it) = true -> is_Some (symbol it)) items.

(** ** The batch scheduler in the words of the specification *)

Definition ceil_div (n b : nat) : nat := (n + b - 1) / b.

(** Consecutive slices of [b] elements, the last one shorter when the
    length is no multiple of [b]. *)
Fixpoint chunks_fuel {A} (fuel b : nat) (l : list A) : list (list A) :=
  match fuel with
  | O => []
  | S fuel' =>
      match l with
      | [] => []
      | _ => take b l :: chunks_fuel fuel' b (drop b l)
      end
  end.

Definition chunks {A} (b : nat) (l : list A) : list (list A) :=
  chunks_fuel (length l) b l.

(** The full cache in universe order, a symbol without entry showing the
    placeholder. *)
Definition snapshot (universe : list string) (c : gmap string string)
  : list (string * string) :=
  (fun s => (s, default (render Pending) (c !! s))) <$> universe.

(** One batch: merge the pairs of the batch, persist the full cache,
    publish the snapshot, sleep.  [tag t s] is the result string of symbol
    [s] in the batch numbered [t]. *)
Definition spec_step (tag : nat -> string -> string) (universe : list string)
    (interval : nat) (st : state) (batch : list string) : state :=
  let c := merge_results ((fun s => (s, tag (tick st) s)) <$> batch) (cache st) in
  mkState c (S (tick st))
          (log st ++ [Persisted c; Emitted (snapshot universe c); Slept interval]).

(** One pass: the batches in order. *)
Definition spec_pass (tag : nat -> string -> string) (universe : list string)
    (interval : nat) (batches : list (list string)) (st : state) : state :=
  foldl (spec_step tag universe interval) st batches.

Definition is_persist (ev : event) : bool :=
  match ev with Persisted _ => true | _ => false end.
Definition is_publish (ev : event) : bool :=
  match ev with Emitted _ => true | _ => false end.
Definition is_sleep (seconds : nat) (ev : event) : bool :=
  match ev with Slept n => (n =? seconds)%nat | _ => false end.
Definition in_universe_order (universe : list string) (ev : event) : bool :=
  match ev with
  | Emitted results => bool_decide (results.*1 = universe)
  | _ => true
  end.

Definition count (p : event -> bool) (l : list event) : nat :=
  length (List.filter p l).

(** The result strings of the two threshold variants. *)
Definition api_tag `{!Externals} (B : api_utils.boot) (net : network)
    (t : nat) (s : string) : string :=
  match api_utils.fetch_kline B (net t s) s with
  | Ret (_, r) => r
  | Raise _ => render Pending
  end.

Definition web_tag `{!Externals} (net : network) (t : nat) (s : string) : string :=
  (web.fetch_kline (net t s) s).2.

(** The states of the api_utils.py scheduler: the state it starts in and
    the state each iteration of the [for] loop leaves, with or without an
    exception. *)
Inductive api_reachable `{!Externals} (B : api_utils.boot) (net : network)
    (group_size interval : nat) (loaded : gmap string string) : state -> Prop :=
  | api_reach_start :
      api_reachable B net group_size interval loaded (api_utils.start B loaded)
  | api_reach_batch st i :
      api_reachable B net group_size interval loaded st ->
      api_reachable B net group_size interval loaded
        (api_utils.batch_body B net group_size interval i st).1.

(** The states of the web.py scheduler. *)
Inductive web_reachable `{!Externals} (SYMBOLS : list string) (net : network)
    (group_size interval : nat) (loaded : gmap string string) : state -> Prop :=
  | web_reach_start :
      web_reachable SYMBOLS net group_size interval loaded (web.start loaded)
  | web_reach_batch st i :
      web_reachable SYMBOLS net group_size interval loaded st ->
      web_reachable SYMBOLS net group_size interval loaded
        (web.batch_body SYMBOLS net group_size interval i st).

(** A universe of [n] symbols and a network on which every request times
    out. *)
Definition symbols (n : nat) : list string :=
  (fun i => "C" +:+ pretty i +:+ "_USDT") <$> seq 0 n.

Definition timeouts : network := fun _ _ => Raise TimeoutError.

(** The labels the threshold variants fit on: [close.shift(-1) > close]
    over the rows left once the 19 leading rows without a 20-bar average are
    dropped; the last row compares with a missing value and gets 0. *)
Definition labels (df : list Bar) : list bool :=
  let c := close <$> drop 19 df in
  zip_with (fun this next => fgt next this) c (tail c ++ [NaN]).

Definition single_class (y : list bool) : bool :=
  forallb id y || forallb negb y.

(** A world whose classifier, like scikit-learn's, refuses to fit labels of
    a single class with a [ValueError], and answers 1/2 otherwise. *)
Definition refusing_one_class : Externals :=
  numbers_only (fun df => if single_class (labels df) then Raise ValueError
                          else Ret (Fin (1 # 2))).

(** [n] well-formed rows with the same close. *)
Definition flat_rows (n : nat) : list json :=
  (fun i => row_of (60000 * Z.of_nat i) 100) <$> seq 0 n.

(** A network on which BTC_USDT trades flat and the others rise. *)
Definition flat_btc : network := fun _ s =>
  if String.eqb s "BTC_USDT" then Ret (kline_body (flat_rows 30))
  else Ret (kline_body (rising_rows 30)).

(** ** The RSI in the words of the specification *)

(** Exponential smoothing with weighting factor [a]: the first value is
    taken as it is, each later one enters with weight [a]. *)
Fixpoint wilder_from (a y : Q) (xs : list Q) : list Q :=
  match xs with
  | [] => []
  | x :: xs' => let y' := ((1 - a) * y + a * x)%Q in y' :: wilder_from a y' xs'
  end.

Definition wilder (a : Q) (xs : list Q) : list Q :=
  match xs with
  | [] => []
  | x :: xs' => x :: wilder_from a x xs'
  end.

(** The per-step changes of a price series. *)
Definition deltas (closes : list Q) : list Q :=
  match closes with
  | [] => []
  | _ :: cs => zip_with Qminus cs closes
  end.

Definition gain_of (d : Q) : Q := Qmax d 0.
Definition loss_of (d : Q) : Q := Qmax (- d) 0.

(** 100 - 100 / (1 + avg_gain / avg_loss), in float arithmetic. *)
Definition rsi_of (g l : Q) : float :=
  fsub (Fz 100) (fdiv (Fz 100) (fadd (Fz 1) (fdiv (Fin g) (Fin l)))).

(** The RSI series: no value for the first price, then the formula on the
    smoothed gains and losses. *)
Definition wilder_rsi (period : nat) (closes : list Q) : list float :=
  match closes with
  | [] => []
  | _ :: _ =>
      let a := 1 # Pos.of_nat period in
      NaN :: zip_with rsi_of (wilder a (gain_of <$> deltas closes))
                             (wilder a (loss_of <$> deltas closes))
  end.

(** A value of an indicator bounded to [0, 100], or no value. *)
Definition percent_or_nan (v : float) : Prop :=
  match v with
  | NaN => True
  | Fin q => (0 <= q <= 100)%Q
  | _ => False
  end.

(** Each price is above the one before. *)
Fixpoint rising (closes : list Q) : Prop :=
  match closes with
  | [] => True
  | c :: cs => match cs with [] => True | c' :: _ => (c < c')%Q end /\ rising cs
  end.

(** What [clip(lower=0)] and the negated [clip(upper=0)] compute on a
    finite change. *)
Definition clipped_gain (d : Q) : Q := if Qlt_le_dec d 0 then 0%Q else d.
Definition clipped_loss (d : Q) : Q := (- (if Qlt_le_dec 0 d then 0 else d))%Q.

(** Every symbol of the universe has an entry in the cache. *)
Definition covers (universe : list string) (st : state) : Prop :=
  forall s, s ∈ universe -> is_Some (cache st !! s).

(** ** Vocabulary of the further properties *)

(** The kind of outcome a published signal stands for. *)
Inductive kind : Set :=
  | KPending | KNoResponse | KRequestFailed | KInsufficientData
  | KAnalysisFailed | KLong | KShort | KNoRecommendation.

Definition kind_of (s : Signal) : kind :=
  match s with
  | Pending => KPending
  | NoResponse => KNoResponse
  | RequestFailed => KRequestFailed
  | InsufficientData => KInsufficientData
  | AnalysisFailed => KAnalysisFailed
  | Long _ => KLong
  | Short _ => KShort
  | NoRecommendation _ => KNoRecommendation
  end.



(** The provider's naming convention: every item has a symbol, and the
    symbol ends in [_USDT] exactly when the contract is quoted in USDT. *)
Definition named_by_quote (items : list Item) : Prop :=
  Forall (fun it => exists s, symbol it = Some s /\
                     endswith s "_USDT" = is_USDT (quoteCoin it)) items.



(** Each price is below the one before. *)
Fixpoint falling (closes : list Q) : Prop :=
  match closes with
  | [] => True
  | c :: cs => match cs with [] => True | c' :: _ => (c' < c)%Q end /\ falling cs
  end.

(** The contracts of the response that [detail_map[s]] can come from:
    those quoted in USDT under the symbol [s], in the order of the response. *)
Definition quoted_as (s : string) (items : list Item) : list Item :=
  filter (fun it => is_USDT (quoteCoin it) = true /\ symbol it = Some s) items.

(** What [n] completed batches add to a state: [n] ticks and, in the log,
    [n] writes of the cache file, [n] broadcasts in universe order and [n]
    sleeps of the interval. *)
Definition advanced (n interval : nat) (universe : list string) (st st' : state) : Prop :=
  tick st' = (tick st + n)%nat /\
  exists events,
    log st' = log st ++ events /\
    count is_persist events = n /\
    count is_publish events = n /\
    count (is_sleep interval) events = n /\
    forallb (in_universe_order universe) events = true.

(** Each price equals the one before. *)
Fixpoint flat (closes : list Q) : Prop :=
  match closes with
  | [] => True
  | c :: cs => match cs with [] => True | c' :: _ => (c' == c)%Q end /\ flat cs
  end.

(** The conversion that [decode_row] applies at index [i] accepts [x]. *)
Definition converts `{!Externals} (i : nat) (x : json) : Prop :=
  if (i =? 0)%nat then returns (py_int x) else returns (py_float x).

(** * Properties *)

(** ** Fallible computations *)

Lemma bind_Ret {A B} (a : A) (k : A -> result B) : (Ret a ≫= k) = k a.
Proof. reflexivity. Qed.

Lemma bind_Raise {A B} (e : exn) (k : A -> result B) : (Raise e ≫= k) = Raise e.
Proof. reflexivity. Qed.

Lemma bind_Ret_inv {A B} (m : result A) (k : A -> result B) (b : B) :
  (m ≫= k) = Ret b -> exists a, m = Ret a /\ k a = Ret b.
Proof. destruct m as [a|e]; [eauto | discriminate]. Qed.

Lemma comprehension_Ret_length {A B} (f : A -> result B) l ys :
  comprehension f l = Ret ys -> length ys = length l.
Proof.
  revert ys. induction l as [|x l IH]; intros ys H; simpl in H.
  - by inversion H.
  - apply bind_Ret_inv in H as (y & _ & H).
    apply bind_Ret_inv in H as (ys' & Hys & H).
    inversion H; subst. simpl. f_equal. by apply IH.
Qed.

Lemma comprehension_Ret_elem {A B} (f : A -> result B) l ys x :
  comprehension f l = Ret ys -> x ∈ l -> returns (f x).
Proof.
  revert ys. induction l as [|x' l IH]; intros ys H Hin.
  - by apply elem_of_nil in Hin.
  - simpl in H. apply bind_Ret_inv in H as (y & Hy & H).
    apply bind_Ret_inv in H as (ys' & Hys & _).
    apply elem_of_cons in Hin as [->|Hin]; [by exists y | eauto].
Qed.

Lemma comprehension_raises {A B} (f : A -> result B) l x :
  x ∈ l -> raises (f x) -> raises (comprehension f l).
Proof.
  intros Hin [e He]. destruct (comprehension f l) as [ys|e'] eqn:H.
  - destruct (comprehension_Ret_elem _ _ _ _ H Hin) as [y Hy]. congruence.
  - by exists e'.
Qed.

Lemma comprehension_total {A B} (f : A -> B) (l : list A) :
  comprehension (fun x => Ret (f x)) l = Ret (f <$> l).
Proof. induction l as [|x l IH]; simpl; [done|]. by rewrite IH. Qed.

Lemma comprehension_ext {A B} (f g : A -> result B) l :
  (forall x, x ∈ l -> f x = g x) -> comprehension f l = comprehension g l.
Proof.
  induction l as [|x l IH]; intros H; simpl; [done|].
  rewrite H by left. rewrite IH; [done|]. intros y Hy. apply H. by right.
Qed.

(** ** The published tags are pairwise different strings *)

Lemma failure_tags_distinct :
  render RequestFailed <> render NoResponse /\
  render RequestFailed <> render InsufficientData /\
  render NoResponse <> render InsufficientData /\
  render AnalysisFailed <> render RequestFailed /\
  render AnalysisFailed <> render NoResponse /\
  render AnalysisFailed <> render InsufficientData.
Proof. repeat split; discriminate. Qed.

(** ** Decoding of k-line rows *)

Section Decoding.
Context `{!Externals}.

Lemma decode_row_fields k b i :
    decode_row k = Ret b -> (i < 6)%nat ->
    exists x, getitem k i = Ret x /\ converts i x.
Proof.
    unfold decode_row. intros Hd Hi.
    repeat (apply bind_Ret_inv in Hd as (? & ? & Hd)).
    do 6 (destruct i as [|i];
          [eexists; split; [eassumption|]; unfold converts, returns; simpl; by eauto|]).
    lia.
Qed.

Lemma non_numeric_rejected i x : non_numeric i x -> ~ converts i x.
Proof.
    unfold non_numeric, converts, returns. intros Hn.
    destruct (i =? 0)%nat; intros [a Ha]; destruct x as [| | |[]| | |];
      simpl in *; try contradiction; try discriminate;
      rewrite Hn in Ha; discriminate.
Qed.
End Decoding.

Section FetchOutcomes.
Context `{!Externals}.

Lemma malformed_raises k : malformed k -> raises (decode_row k).
Proof.
  intros (l & -> & Hbad).
  destruct (decode_row (JArr l)) as [b|e] eqn:Hd; [exfalso | by exists e].
  destruct Hbad as [Hshort | (i & x & Hi & Hx & Hn)].
  - destruct (decode_row_fields _ _ (length l) Hd Hshort) as (x & Hget & _).
    simpl in Hget. by rewrite lookup_ge_None_2 in Hget.
  - destruct (decode_row_fields _ _ i Hd Hi) as (x' & Hget & Hc).
    simpl in Hget. rewrite Hx in Hget. inversion Hget; subst.
    by apply (non_numeric_rejected i x').
Qed.

(** The first [try] of api_utils.py on a body with a non-empty [data] array. *)
Lemma api_fetch_rows body r rows :
  assoc "data" body = Some (JArr (r :: rows)) ->
  api_utils.fetch (Ret (JObj body)) =
    (df ← comprehension decode_row (r :: rows); Ret (inr df)).
Proof. intros Hd. unfold api_utils.fetch. simpl. by rewrite Hd. Qed.

(** The first [try] of web.py on a body with a [data] array. *)
Lemma web_fetch_rows body rows :
  assoc "data" body = Some (JArr rows) ->
  web.fetch (Ret (JObj body)) =
    (df ← comprehension decode_row rows; Ret (inr df)).
Proof. intros Hd. unfold web.fetch. simpl. by rewrite Hd. Qed.

Lemma api_fetch_kline_transport B e sym :
  api_utils.fetch_kline B (Raise e) sym = Ret (sym, render RequestFailed).
Proof. reflexivity. Qed.

Lemma web_fetch_kline_transport e sym :
  web.fetch_kline (Raise e) sym = (sym, render RequestFailed).
Proof. reflexivity. Qed.

Lemma api_fetch_kline_undecodable B body rows sym :
  assoc "data" body = Some (JArr rows) ->
  raises (comprehension decode_row rows) ->
  api_utils.fetch_kline B (Ret (JObj body)) sym = Ret (sym, render RequestFailed).
Proof.
  intros Hd [e He]. destruct rows as [|r rows]; [discriminate|].
  unfold api_utils.fetch_kline. by rewrite (api_fetch_rows _ _ _ Hd), He.
Qed.

Lemma web_fetch_kline_undecodable body rows sym :
  assoc "data" body = Some (JArr rows) ->
  raises (comprehension decode_row rows) ->
  web.fetch_kline (Ret (JObj body)) sym = (sym, render RequestFailed).
Proof.
  intros Hd [e He].
  unfold web.fetch_kline. by rewrite (web_fetch_rows _ _ Hd), He.
Qed.

Lemma api_fetch_kline_few B body rows df sym :
  assoc "data" body = Some (JArr rows) ->
  comprehension decode_row rows = Ret df ->
  (0 < length df < 25)%nat ->
  api_utils.fetch_kline B (Ret (JObj body)) sym = Ret (sym, render InsufficientData).
Proof.
  intros Hd Hdec Hlen. destruct rows as [|r rows].
  { simpl in Hdec. inversion Hdec; subst. simpl in Hlen. lia. }
  unfold api_utils.fetch_kline. rewrite (api_fetch_rows _ _ _ Hd), Hdec. simpl.
  destruct (Nat.ltb_spec (length df) 25); [done | lia].
Qed.

Lemma web_fetch_kline_few body rows df sym :
  assoc "data" body = Some (JArr rows) ->
  comprehension decode_row rows = Ret df ->
  (length df < 25)%nat ->
  web.fetch_kline (Ret (JObj body)) sym = (sym, render InsufficientData).
Proof.
  intros Hd Hdec Hlen.
  unfold web.fetch_kline, web.analyse. rewrite (web_fetch_rows _ _ Hd), Hdec. simpl.
  destruct (Nat.ltb_spec (length df) 25); [done | lia].
Qed.

Lemma api_fetch_kline_no_data B body sym :
  assoc "data" body = None ->
  api_utils.fetch_kline B (Ret (JObj body)) sym = Ret (sym, render NoResponse).
Proof. intros Hd. unfold api_utils.fetch_kline, api_utils.fetch. simpl. by rewrite Hd. Qed.

Lemma api_fetch_kline_empty B body sym :
  assoc "data" body = Some (JArr []) ->
  api_utils.fetch_kline B (Ret (JObj body)) sym = Ret (sym, render NoResponse).
Proof. intros Hd. unfold api_utils.fetch_kline, api_utils.fetch. simpl. by rewrite Hd. Qed.

Lemma web_fetch_kline_no_data body sym :
  assoc "data" body = None ->
  web.fetch_kline (Ret (JObj body)) sym = (sym, render NoResponse).
Proof. intros Hd. unfold web.fetch_kline, web.fetch. simpl. by rewrite Hd. Qed.

(** web.py never lets an exception out of [fetch_kline]: it is a total
    function; in api_utils.py only the classifier pipeline can raise. *)
Lemma api_fetch_kline_raises B response sym e :
  api_utils.fetch_kline B response sym = Raise e ->
  exists df, api_utils.fetch response = Ret (inr df) /\ (25 <= length df)%nat /\
             predict_up df = Raise e.
Proof.
  unfold api_utils.fetch_kline.
  destruct (api_utils.fetch response) as [[s|df]|e']; try discriminate.
  destruct (Nat.ltb_spec (length df) 25); [discriminate|].
  destruct (predict_up df) as [p|e'] eqn:Hp; [discriminate|].
  intros [= ->]. eauto.
Qed.

Lemma test_analyze_symbol_default response sym :
  raises (test.get_klines response) ->
  test.analyze_symbol response sym = (sym, "롱", Fz 0).
Proof.
  intros [e He]. unfold test.analyze_symbol, test.analyse. by rewrite He.
Qed.

End FetchOutcomes.

(** C10. A fetch whose payload holds a malformed row (fewer than six
    fields, or a non-numeric timestamp, price or volume field) publishes
    the symbol with the RequestFailed tag, in api_utils.py and in web.py:
    the decoding exception reaches the handler of the transport and timeout
    errors, and the published pair is the one that a transport failure [e]
    gives. *)
Theorem malformed_rows_publish_RequestFailed `{!Externals}
    (B : api_utils.boot) (sym : string) (body : list (string * json))
    (rows : list json) (k : json) (e : exn)
    (Hdata : assoc "data" body = Some (JArr rows))
    (Hin : k ∈ rows)
    (Hbad : malformed k) :
  api_utils.fetch_kline B (Ret (JObj body)) sym = Ret (sym, render RequestFailed) /\
  web.fetch_kline (Ret (JObj body)) sym = (sym, render RequestFailed) /\
  api_utils.fetch_kline B (Ret (JObj body)) sym = api_utils.fetch_kline B (Raise e) sym /\
  web.fetch_kline (Ret (JObj body)) sym = web.fetch_kline (Raise e) sym.
Proof.
  assert (raises (comprehension decode_row rows)) as Hr
    by (eapply comprehension_raises; [exact Hin | by apply malformed_raises]).
  rewrite api_fetch_kline_transport, web_fetch_kline_transport.
  rewrite (api_fetch_kline_undecodable _ _ _ _ Hdata Hr).
  by rewrite (web_fetch_kline_undecodable _ _ _ Hdata Hr).
Qed.

Lemma malformed_rows_publish_RequestFailed_witness :
  let E := numbers_only (fun _ => Ret (Fin (1 # 2))) in
  let B := api_utils.bootstrap (Ret (Some [])) in
  let short := JArr [JInt 1700000000000; JInt 5; JInt 6; JInt 4; JInt 5] in
  let body := [("success", JBool true); ("data", JArr [row_of 0 5; short])] in
  api_utils.fetch_kline B (Ret (JObj body)) "BTC_USDT"
    = Ret ("BTC_USDT", render RequestFailed) /\
  web.fetch_kline (Ret (JObj body)) "BTC_USDT" = ("BTC_USDT", render RequestFailed) /\
  api_utils.fetch_kline B (Ret (JObj body)) "BTC_USDT"
    = api_utils.fetch_kline B (Raise TimeoutError) "BTC_USDT" /\
  web.fetch_kline (Ret (JObj body)) "BTC_USDT"
    = web.fetch_kline (Raise TimeoutError) "BTC_USDT".
Proof.
  intros E B short body.
  apply (@malformed_rows_publish_RequestFailed E B "BTC_USDT" body
           [row_of 0 5; short] short TimeoutError).
  - reflexivity.
  - apply list_elem_of_In. simpl. auto.
  - exists [JInt 1700000000000; JInt 5; JInt 6; JInt 4; JInt 5].
    split; [reflexivity | left; simpl; lia].
Defined.

(** C2, as stated, fails.  In test.py a timed-out request and an empty
    payload give the same triple, the default direction with rate 0, and
    [get_klines] itself raises to its caller; in web.py a payload whose
    [data] array is empty is tagged InsufficientData, not NoResponse. *)
Lemma fetch_outcomes_not_distinct :
  let E := numbers_only (fun _ => Ret (Fin (1 # 2))) in
  test.analyze_symbol (Raise TimeoutError) "BTC_USDT"
    = test.analyze_symbol (Ret (Some [])) "BTC_USDT" /\
  test.analyze_symbol (Raise TimeoutError) "BTC_USDT" = ("BTC_USDT", "롱", Fz 0) /\
  test.get_klines (Raise TimeoutError) = Raise TimeoutError /\
  web.fetch_kline (Ret (JObj [("data", JArr [])])) "BTC_USDT"
    = ("BTC_USDT", render InsufficientData) /\
  render InsufficientData <> render NoResponse.
Proof. repeat split. discriminate. Qed.

(** C2, amended.  [fetch_kline] returns a tag for each failure mode and
    raises none of them.  In api_utils.py: a failed request gives
    RequestFailed, a body without [data] or with an empty [data] array
    gives NoResponse, and between 1 and 24 decoded bars give
    InsufficientData.  In web.py: a failed request gives RequestFailed, a
    body without [data] gives NoResponse, and fewer than 25 decoded bars,
    none included, give InsufficientData.  The three tags are different
    strings.  In test.py every failure of [get_klines] makes
    [analyze_symbol] return the default direction with rate 0. *)
Theorem fetch_failures_are_outcomes `{!Externals}
    (B : api_utils.boot) (sym : string) (e : exn)
    (body : list (string * json)) (rows : list json) (df : list Bar)
    (Hnone : assoc "data" body = None)
    (Hdec : comprehension decode_row rows = Ret df)
    (Hfew : (0 < length df < 25)%nat) :
  (api_utils.fetch_kline B (Raise e) sym = Ret (sym, render RequestFailed) /\
   api_utils.fetch_kline B (Ret (JObj body)) sym = Ret (sym, render NoResponse) /\
   api_utils.fetch_kline B (Ret (JObj (("data", JArr []) :: body))) sym
     = Ret (sym, render NoResponse) /\
   api_utils.fetch_kline B (Ret (JObj (("data", JArr rows) :: body))) sym
     = Ret (sym, render InsufficientData)) /\
  (web.fetch_kline (Raise e) sym = (sym, render RequestFailed) /\
   web.fetch_kline (Ret (JObj body)) sym = (sym, render NoResponse) /\
   web.fetch_kline (Ret (JObj (("data", JArr []) :: body))) sym
     = (sym, render InsufficientData) /\
   web.fetch_kline (Ret (JObj (("data", JArr rows) :: body))) sym
     = (sym, render InsufficientData)) /\
  (render RequestFailed <> render NoResponse /\
   render RequestFailed <> render InsufficientData /\
   render NoResponse <> render InsufficientData) /\
  (forall response, raises (test.get_klines response) ->
     test.analyze_symbol response sym = (sym, "롱", Fz 0)).
Proof.
  split; [|split; [|split]].
  - split; [reflexivity|]. split; [by apply api_fetch_kline_no_data|].
    split; [by apply api_fetch_kline_empty|].
    by apply (api_fetch_kline_few B _ rows df); [reflexivity|..].
  - split; [reflexivity|]. split; [by apply web_fetch_kline_no_data|].
    split; [apply (web_fetch_kline_few _ [] []); [reflexivity.. | simpl; lia]|].
    apply (web_fetch_kline_few _ rows df); [reflexivity | done | lia].
  - repeat split; discriminate.
  - intros response. apply test_analyze_symbol_default.
Qed.

Lemma fetch_failures_are_outcomes_witness :
  let E := numbers_only (fun _ => Ret (Fin (1 # 2))) in
  let B := api_utils.bootstrap (Ret (Some [])) in
  let body := [("success", JBool true)] in
  let rows := [row_of 60000 5; row_of 120000 6] in
  api_utils.fetch_kline B (Ret (JObj (("data", JArr rows) :: body))) "BTC_USDT"
    = Ret ("BTC_USDT", render InsufficientData) /\
  web.fetch_kline (Ret (JObj body)) "BTC_USDT" = ("BTC_USDT", render NoResponse).
Proof.
  intros E B body rows.
  pose proof (@fetch_failures_are_outcomes E B "BTC_USDT" TimeoutError body rows
    [mkBar 60 (Fz 5) (Fz 5) (Fz 5) (Fz 5) (Fz 1);
     mkBar 120 (Fz 6) (Fz 6) (Fz 6) (Fz 6) (Fz 1)]
    eq_refl eq_refl ltac:(simpl; lia)) as (Ha & Hw & _).
  split; [apply Ha | apply Hw].
Defined.

(** ** The threshold classifier *)

Section Threshold.
Context `{!Externals}.





Lemma web_classify_eq (p : float) : web.classify p = api_utils.classify p.
Proof. reflexivity. Qed.

End Threshold.



(** ** The universe loader *)

Lemma keys_dict_set {V} (k : string) (v : V) d :
  keys (dict_set k v d) = add_key (keys d) k.
Proof.
  unfold add_key, keys. induction d as [|[k' v'] d IH].
  - by destruct (decide (k ∈ fst <$> @nil (string * V))) as [?%elem_of_nil|].
  - cbn [dict_set]. destruct (String.eqb_spec k k') as [->|Hne].
    + rewrite decide_True; [done | left].
    + rewrite !fmap_cons, IH. cbn [fst].
      destruct (decide (k ∈ fst <$> d)) as [Hin|Hnin].
      * rewrite decide_True; [done | by right].
      * rewrite decide_False; [done|]. intros [?|?]%elem_of_cons; congruence.
Qed.

Lemma foldl_add_key ks l :
  exists r, foldl add_key ks l = ks ++ r /\
    r `sublist_of` l /\
    (forall x, x ∈ r <-> x ∈ l /\ x ∉ ks) /\
    (NoDup ks -> NoDup (ks ++ r)) /\
    (NoDup l -> (forall x, x ∈ l -> x ∉ ks) -> r = l).
Proof.
  revert ks. induction l as [|a l IH]; intros ks; simpl.
  - exists []. rewrite app_nil_r. split; [done|]. split; [done|].
    split; [|split; [done|done]].
    intros x. split; [by intros ?%elem_of_nil | by intros [?%elem_of_nil _]].
  - unfold add_key at 2. destruct (decide (a ∈ ks)) as [Hin|Hnin].
    + destruct (IH ks) as (r & Hr & Hsub & Hel & Hnd & Heq).
      exists r. split; [done|]. split; [by apply sublist_cons|].
      split; [|split; [done|]].
      * intros x. rewrite Hel, elem_of_cons. split.
        -- intros [? ?]. split; [by right | done].
        -- intros [[->|?] ?]; [done | by split].
      * intros _ Hdis. exfalso. apply (Hdis a); [left | done].
    + destruct (IH (ks ++ [a])) as (r & Hr & Hsub & Hel & Hnd & Heq).
      exists (a :: r). split; [by rewrite Hr, <- app_assoc|].
      split; [by apply sublist_skip|]. split; [|split].
      * intros x. rewrite elem_of_cons, Hel, elem_of_cons, elem_of_app, list_elem_of_singleton.
        split.
        -- intros [->|[? Hx]]; [by split; [left|] | split; [by right | tauto]].
        -- intros [[->|?] ?]; [by left|].
           destruct (decide (x = a)) as [->|?]; [by left | right; tauto].
      * intros Hks. replace (ks ++ a :: r) with ((ks ++ [a]) ++ r)
          by (by rewrite <- app_assoc).
        apply Hnd. apply NoDup_app. split; [done|]. split.
        -- intros x Hx ->%list_elem_of_singleton. done.
        -- apply NoDup_singleton.
      * intros [Ha Hl]%NoDup_cons Hdis. f_equal. apply Heq; [done|].
        intros x Hx [?| ->%list_elem_of_singleton]%elem_of_app.
        -- apply (Hdis x); [by right | done].
        -- done.
Qed.

Lemma collect_ok items dm :
  usdt_have_symbols items ->
  exists dm', api_utils.collect items dm = (dm', Ret tt) /\
    keys dm' = foldl add_key (keys dm) (usdt_symbols items).
Proof.
  unfold usdt_have_symbols, usdt_symbols.
  revert dm. induction items as [|it items IH]; intros dm Hall; simpl.
  - by exists dm.
  - apply Forall_cons in Hall as [Hit Hall]. rewrite filter_cons.
    destruct (is_USDT (quoteCoin it)) eqn:Hq.
    + destruct (Hit eq_refl) as [s Hs]. rewrite Hs.
      rewrite decide_True by done. simpl. rewrite Hs.
      destruct (IH (dict_set s it dm) Hall) as (dm' & Hc & Hk).
      exists dm'. split; [done|]. by rewrite Hk, keys_dict_set.
    + rewrite decide_False by done. by apply IH.
Qed.

Lemma collect_missing_symbol items dm :
  ~ usdt_have_symbols items ->
  exists dm', api_utils.collect items dm = (dm', Raise KeyError).
Proof.
  unfold usdt_have_symbols.
  revert dm. induction items as [|it items IH]; intros dm Hnot; simpl.
  - exfalso. apply Hnot. constructor.
  - destruct (is_USDT (quoteCoin it)) eqn:Hq.
    + destruct (symbol it) as [s|] eqn:Hs; [|by eexists].
      apply IH. intros Hall. apply Hnot. constructor; [|done]. by eexists.
    + apply IH. intros Hall. apply Hnot. constructor; [|done].
      intros ?; congruence.
Qed.

Lemma web_select_ok items :
  usdt_have_symbols items -> web.select items = Ret (usdt_symbols items).
Proof.
  unfold usdt_have_symbols, usdt_symbols.
  induction items as [|it items IH]; intros Hall; simpl; [done|].
  apply Forall_cons in Hall as [Hit Hall]. rewrite filter_cons.
  destruct (is_USDT (quoteCoin it)) eqn:Hq.
  - destruct (Hit eq_refl) as [s Hs]. rewrite Hs, decide_True by done.
    simpl. by rewrite Hs, (IH Hall).
  - rewrite decide_False by done. by apply IH.
Qed.

Lemma test_select_ok items :
  Forall (fun it => is_Some (symbol it)) items ->
  test.select items = Ret (suffix_symbols items).
Proof.
  unfold suffix_symbols.
  induction items as [|it items IH]; intros Hall; simpl; [done|].
  apply Forall_cons in Hall as [[s Hs] Hall]. rewrite Hs. simpl.
  rewrite filter_cons, (IH Hall).
  destruct (endswith s "_USDT") eqn:He.
  - by rewrite decide_True.
  - by rewrite decide_False.
Qed.

Lemma bootstrap_ok items :
  usdt_have_symbols items ->
  let B := api_utils.bootstrap (Ret (Some items)) in
  api_utils.printed B = [] /\
  api_utils.SYMBOLS B `sublist_of` usdt_symbols items /\
  (forall s, s ∈ api_utils.SYMBOLS B <-> s ∈ usdt_symbols items) /\
  NoDup (api_utils.SYMBOLS B) /\
  (NoDup (usdt_symbols items) -> api_utils.SYMBOLS B = usdt_symbols items).
Proof.
  intros Hall. unfold api_utils.bootstrap. simpl.
  destruct (collect_ok items [] Hall) as (dm & -> & Hk). simpl. rewrite Hk.
  change (keys []) with (@nil string).
  destruct (foldl_add_key [] (usdt_symbols items)) as (r & -> & Hsub & Hel & Hnd & Heq).
  simpl. split; [done|]. split; [done|]. split; [|split].
  - intros s. rewrite Hel. split; [tauto|]. intros ?. split; [done|apply not_elem_of_nil].
  - apply Hnd, NoDup_nil_2.
  - intros Hn. apply Heq; [done|]. intros x _. apply not_elem_of_nil.
Qed.

Lemma bootstrap_missing_symbol items :
  ~ usdt_have_symbols items ->
  let B := api_utils.bootstrap (Ret (Some items)) in
  api_utils.SYMBOLS B = [] /\ api_utils.printed B = [KeyError].
Proof.
  intros Hnot. unfold api_utils.bootstrap. simpl.
  by destruct (collect_missing_symbol items [] Hnot) as (dm & ->).
Qed.

(** With an empty universe the scheduler runs and has nothing to do. *)
Lemma rotating_analysis_empty_universe `{!Externals} B net group_size interval
    loaded passes :
  api_utils.SYMBOLS B = [] -> (0 < group_size)%nat ->
  api_utils.rotating_analysis B net group_size interval loaded passes
    = (mkState loaded 0 [], None).
Proof.
  intros HB Hg. unfold api_utils.rotating_analysis, api_utils.start,
    api_utils.setdefaults. rewrite HB. simpl.
  induction passes as [|n IH]; simpl; [done|].
  unfold api_utils.one_pass, py_range. rewrite HB. simpl.
  destruct (Nat.eqb_spec group_size 0); [lia|]. simpl. exact IH.
Qed.

(** C5, as stated, fails: in web.py and in test.py a failed request to the
    contract-detail endpoint is not turned into an empty universe; the
    exception leaves the loader, and nothing in the main block catches it. *)
Lemma loader_failure_propagates :
  web.load_symbols (Raise ClientError) = Raise ClientError /\
  test.fetch_symbols (Raise ClientError) = Raise ClientError /\
  web.load_symbols (Ret None) = Raise KeyError.
Proof. repeat split. Qed.

(** C5, amended.  For a response whose items all carry a symbol:
    api_utils.py issues one request, keeps the symbols of the contracts
    whose quote coin is USDT, once each and in the order of the response
    (the list of those symbols itself when they are distinct), and prints
    nothing; when the request fails it issues one request, prints the error
    and leaves an empty universe, over which the scheduler runs without
    anything to analyse.  web.py keeps the symbols of the contracts whose
    quote coin is USDT in the order of the response, and test.py the symbols
    that end in [_USDT]; in both a failed request raises out of the loader. *)
Theorem universe_loader_variants (items : list Item) (e : exn)
    (Hsym : Forall (fun it => is_Some (symbol it)) items) :
  let B := api_utils.bootstrap (Ret (Some items)) in
  let failed := api_utils.bootstrap (Raise e) in
  (api_utils.requests B = 1%nat /\
   api_utils.printed B = [] /\
   api_utils.SYMBOLS B `sublist_of` usdt_symbols items /\
   (forall s, s ∈ api_utils.SYMBOLS B <-> s ∈ usdt_symbols items) /\
   NoDup (api_utils.SYMBOLS B) /\
   (NoDup (usdt_symbols items) -> api_utils.SYMBOLS B = usdt_symbols items)) /\
  (api_utils.requests failed = 1%nat /\
   api_utils.printed failed = [e] /\
   api_utils.SYMBOLS failed = [] /\
   forall (E : Externals) net interval loaded passes,
     api_utils.rotating_analysis failed net 30 interval loaded passes
       = (mkState loaded 0 [], None)) /\
  (web.load_symbols (Ret (Some items)) = Ret (usdt_symbols items) /\
   web.load_symbols (Raise e) = Raise e) /\
  (test.fetch_symbols (Ret (Some items)) = Ret (suffix_symbols items) /\
   test.fetch_symbols (Raise e) = Raise e).
Proof.
  assert (usdt_have_symbols items) as Hall.
  { unfold usdt_have_symbols. eapply Forall_impl; [exact Hsym|]. by intros it ? _. }
  intros B failed. split; [|split; [|split]].
  - split.
    + unfold B, api_utils.bootstrap. simpl.
      by destruct (api_utils.collect items []) as [dm [[]|e']].
    + apply (bootstrap_ok items Hall).
  - repeat split. intros E net interval loaded passes.
    apply rotating_analysis_empty_universe; [done | lia].
  - split; [|done]. simpl. by apply web_select_ok.
  - split; [|done]. unfold test.fetch_symbols. simpl. by apply test_select_ok.
Qed.

Lemma universe_loader_variants_witness :
  let items := [contract "BTC_USDT" "USDT" (4 # 1000) (8 # 1000);
                contract "BTC_USD" "USD" (4 # 1000) (8 # 1000);
                contract "ETH_USDT" "USDT" (5 # 1000) (1 # 100)] in
  api_utils.SYMBOLS (api_utils.bootstrap (Ret (Some items)))
    = ["BTC_USDT"; "ETH_USDT"] /\
  web.load_symbols (Ret (Some items)) = Ret ["BTC_USDT"; "ETH_USDT"] /\
  test.fetch_symbols (Ret (Some items)) = Ret ["BTC_USDT"; "ETH_USDT"] /\
  api_utils.SYMBOLS (api_utils.bootstrap (Raise TimeoutError)) = [].
Proof.
  intros items.
  assert (Forall (fun it => is_Some (symbol it)) items) as Hsym
    by (repeat constructor; by eexists).
  destruct (universe_loader_variants items TimeoutError Hsym)
    as ((_ & _ & _ & _ & _ & Hs) & (_ & _ & Hf & _) & (Hw & _) & (Ht & _)).
  split; [|split; [|split]].
  - rewrite Hs; [reflexivity|]. apply (bool_decide_unpack _). by vm_compute.
  - rewrite Hw. reflexivity.
  - rewrite Ht. reflexivity.
  - exact Hf.
Defined.

(** ** The retrying session of test.py *)

Lemma urlopen_bounded fuel r method world n :
  test.is_exhausted r = false ->
  fuel = S (Z.to_nat (test.total r)) ->
  exists m res, test.urlopen fuel r method world n = Some (m, res) /\
    (n < m <= n + fuel)%nat.
Proof.
  revert r n. induction fuel as [|fuel IH]; intros r n Hex Hfuel; [lia|].
  simpl. destruct (test.is_retry r method (world n)).
  - destruct (test.is_exhausted (test.increment r (world n))) eqn:Hex'.
    + eexists _, _. split; [done | lia].
    + assert (test.total (test.increment r (world n)) = (test.total r - 1)%Z) as Ht
        by (by destruct (world n)).
      unfold test.is_exhausted in Hex, Hex'.
      apply Z.ltb_ge in Hex. apply Z.ltb_ge in Hex'.
      destruct (IH (test.increment r (world n)) (S n)) as (m & res & Hu & Hm).
      * by apply Z.ltb_ge.
      * lia.
      * exists m, res. split; [done | lia].
  - destruct (world n); eexists _, _; (split; [done | lia]).
Qed.

Lemma urlopen_retry fuel r method world n :
  test.is_retry r method (world n) = true ->
  test.urlopen (S fuel) r method world n =
    let r' := test.increment r (world n) in
    if test.is_exhausted r' then Some (S n, Raise MaxRetryError)
    else test.urlopen fuel r' method world (S n).
Proof. intros Hr. simpl. by rewrite Hr. Qed.

Lemma urlopen_connect_errors (T : nat) r method n :
  test.total r = Z.of_nat T -> test.connect r = Z.of_nat T ->
  (Z.of_nat T <= test.read r)%Z ->
  test.urlopen (S T) r method (fun _ => test.ConnectError) n
    = Some ((n + T + 1)%nat, Raise MaxRetryError).
Proof.
  revert r n. induction T as [|T IH]; intros r n Ht Hc Hr;
    rewrite urlopen_retry by done; cbv zeta;
    set (r' := test.increment r test.ConnectError).
  - assert (test.is_exhausted r' = true) as ->.
    { unfold test.is_exhausted, r'. simpl. apply Z.ltb_lt. lia. }
    do 2 f_equal. lia.
  - assert (test.is_exhausted r' = false) as ->.
    { unfold test.is_exhausted, r'. simpl. apply Z.ltb_ge. lia. }
    rewrite (IH r' (S n)); [do 2 f_equal; lia | unfold r'; simpl; lia..].
Qed.

(** C9, as stated, fails: the adapter that [create_session()] mounts gives
    up.  A request whose every transmission ends in a connection error is
    sent 4 times, once plus the 3 retries of [total], and the session then
    raises; the same holds when every answer has status 500. *)
Lemma retry_gives_up_after_three_retries :
  test.get test.default_session (fun _ => test.ConnectError)
    = Some (4%nat, Raise MaxRetryError) /\
  test.get test.default_session (fun _ => test.Status 500)
    = Some (4%nat, Raise MaxRetryError).
Proof. split; reflexivity. Qed.

(** C9, amended.  The adapter mounted by [create_session(retries)] retries
    a failed GET request at most [retries] times (3 by default): whatever
    the transmissions end in, the session returns or raises after at most
    [retries + 1] of them, and a request whose transmissions all end in a
    connection error is given up after exactly [retries + 1]. *)
Theorem retry_is_bounded (retries : nat) (backoff : Q) (forcelist : list Z)
    (world : nat -> test.attempt) :
  let s := test.create_session (Z.of_nat retries) backoff forcelist in
  (exists n res, test.get s world = Some (n, res) /\ (1 <= n <= retries + 1)%nat) /\
  test.get s (fun _ => test.ConnectError)
    = Some ((retries + 1)%nat, Raise MaxRetryError).
Proof.
  intros s.
  assert (test.is_exhausted (test.https s) = false) as Hex
    by (unfold test.is_exhausted; simpl; apply Z.ltb_ge; lia).
  unfold test.get. rewrite Hex. simpl test.total. rewrite Nat2Z.id. split.
  - destruct (urlopen_bounded (S retries) (test.https s) "GET" world 0 Hex)
      as (m & res & Hu & Hm); [simpl; by rewrite Nat2Z.id|].
    exists m, res. split; [exact Hu | lia].
  - by rewrite (urlopen_connect_errors retries); [|simpl; lia..].
Qed.

(** ** The batch scheduler *)

Lemma slices_chunks {A} (l : list A) b fuel i :
  (fun j => slice l j (j + b)) <$> range_from fuel i (length l) b
    = chunks_fuel fuel b (drop i l).
Proof.
  revert i. induction fuel as [|fuel IH]; intros i; simpl; [done|].
  destruct (Nat.ltb_spec i (length l)) as [Hlt|Hge].
  - destruct (drop i l) as [|x l'] eqn:Hd.
    { apply (f_equal length) in Hd. rewrite length_drop in Hd. simpl in Hd. lia. }
    rewrite fmap_cons, IH. unfold slice.
    replace (i + b - i)%nat with b by lia.
    by rewrite Hd, <- (drop_drop l), Hd.
  - by rewrite drop_ge.
Qed.

Lemma chunks_fuel_concat {A} (l : list A) b fuel :
  (0 < b)%nat -> (length l <= fuel)%nat -> concat (chunks_fuel fuel b l) = l.
Proof.
  intros Hb. revert l. induction fuel as [|fuel IH]; intros l Hl.
  - by destruct l; [|simpl in Hl; lia].
  - destruct l as [|x l]; [done|]. cbn [chunks_fuel concat].
    rewrite IH; [apply take_drop|].
    rewrite length_drop. simpl in *. lia.
Qed.

Lemma ceil_div_0 b : (0 < b)%nat -> ceil_div 0 b = 0%nat.
Proof. intros Hb. unfold ceil_div. apply Nat.div_small. lia. Qed.

Lemma ceil_div_step n b :
  (0 < b)%nat -> (0 < n)%nat -> ceil_div n b = S (ceil_div (n - b) b).
Proof.
  intros Hb Hn. unfold ceil_div.
  destruct (Nat.le_gt_cases b n) as [Hle|Hgt].
  - replace (n + b - 1)%nat with ((n - b + b - 1) + 1 * b)%nat by lia.
    rewrite Nat.div_add by lia. lia.
  - replace (n - b)%nat with 0%nat by lia.
    rewrite (Nat.div_small (0 + b - 1)) by lia.
    replace (n + b - 1)%nat with ((n - 1) + 1 * b)%nat by lia.
    rewrite Nat.div_add by lia. rewrite Nat.div_small by lia. lia.
Qed.

Lemma chunks_fuel_length {A} (l : list A) b fuel :
  (0 < b)%nat -> (length l <= fuel)%nat ->
  length (chunks_fuel fuel b l) = ceil_div (length l) b.
Proof.
  intros Hb. revert l. induction fuel as [|fuel IH]; intros l Hl.
  - destruct l; [|simpl in Hl; lia]. by rewrite ceil_div_0.
  - destruct l as [|x l]; [by rewrite ceil_div_0|]. cbn [chunks_fuel length].
    rewrite IH by (rewrite length_drop; simpl in *; lia).
    rewrite length_drop. by rewrite (ceil_div_step (length (x :: l))) by (simpl; lia).
Qed.

Lemma chunks_fuel_lookup {A} (l : list A) b fuel k batch :
  chunks_fuel fuel b l !! k = Some batch ->
  batch = take b (drop (k * b) l) /\ (k * b < length l)%nat.
Proof.
  revert l k. induction fuel as [|fuel IH]; intros l k; [done|].
  destruct l as [|x l]; [done|]. cbn [chunks_fuel].
  destruct k as [|k].
  - intros [= <-]. simpl. split; [done | lia].
  - cbn [lookup list_lookup]. intros Hk. apply IH in Hk as [-> Hk].
    rewrite length_drop in Hk. rewrite drop_drop. split; [f_equal; f_equal; lia|].
    simpl in *. lia.
Qed.


Section Sched.
Context `{!Externals}.

Lemma web_fetch_kline_tag net t s :
  web.fetch_kline (net t s) s = (s, web_tag net t s).
Proof.
  unfold web_tag, web.fetch_kline.
  by destruct (web.fetch (net t s)) as [[?|df]|?]; [| destruct (web.analyse df) |].
Qed.

Lemma web_batch_body_spec SYMBOLS net group_size interval i st :
  web.batch_body SYMBOLS net group_size interval i st
    = spec_step (web_tag net) SYMBOLS interval st (slice SYMBOLS i (i + group_size)).
Proof.
  unfold web.batch_body, spec_step, snapshot.
  by rewrite (list_fmap_ext _ (fun s => (s, web_tag net (tick st) s)) _
            (fun _ s _ => web_fetch_kline_tag net (tick st) s)).
Qed.

Lemma web_for_loop_spec SYMBOLS net group_size interval indices st :
  web.for_loop SYMBOLS net group_size interval indices st
    = spec_pass (web_tag net) SYMBOLS interval
        ((fun i => slice SYMBOLS i (i + group_size)) <$> indices) st.
Proof.
  unfold web.for_loop, spec_pass. revert st.
  induction indices as [|i indices IH]; intros st; simpl; [done|].
  by rewrite IH, web_batch_body_spec.
Qed.

Lemma web_one_pass_spec SYMBOLS net group_size interval st :
  (0 < group_size)%nat ->
  web.one_pass SYMBOLS net group_size interval st
    = (spec_pass (web_tag net) SYMBOLS interval (chunks group_size SYMBOLS) st, None).
Proof.
  intros Hg. unfold web.one_pass, py_range.
  destruct (Nat.eqb_spec group_size 0); [lia|].
  rewrite web_for_loop_spec, slices_chunks. by rewrite drop_0.
Qed.

Lemma merge_app rs1 rs2 c : merge_results (rs1 ++ rs2) c = merge_results rs2 (merge_results rs1 c).
Proof. unfold merge_results. by rewrite foldl_app. Qed.

Lemma merge_cons s r rs c :
  merge_results ((s, r) :: rs) c = merge_results rs (<[s:=r]> c).
Proof. reflexivity. Qed.

Lemma merge_dom rs c : dom (merge_results rs c) = dom c ∪ list_to_set rs.*1.
Proof.
  revert c. induction rs as [|[s r] rs IH]; intros c.
  - simpl. by rewrite union_empty_r_L.
  - rewrite merge_cons, IH, dom_insert_L, fmap_cons, list_to_set_cons. simpl.
    by rewrite (union_comm_L {[s]} (dom c)), union_assoc_L.
Qed.

Lemma merge_lookup_not_in rs c s : s ∉ rs.*1 -> merge_results rs c !! s = c !! s.
Proof.
  revert c. induction rs as [|[s' r] rs IH]; intros c Hs; [done|].
  rewrite fmap_cons, not_elem_of_cons in Hs. destruct Hs as [Hne Hs].
  rewrite merge_cons, IH by done. by rewrite lookup_insert_ne.
Qed.

(** Merging pairs [(s, f s)]: a merged symbol holds [f s]. *)
Lemma merge_lookup_in (f : string -> string) batch c s :
  s ∈ batch -> merge_results ((fun s => (s, f s)) <$> batch) c !! s = Some (f s).
Proof.
  revert c. induction batch as [|s' batch IH]; intros c Hs.
  - by apply elem_of_nil in Hs.
  - rewrite fmap_cons, merge_cons.
    destruct (decide (s ∈ batch)) as [Hin|Hnin]; [by apply IH|].
    apply elem_of_cons in Hs as [->|Hs]; [|done].
    rewrite merge_lookup_not_in.
    + by rewrite lookup_insert_eq.
    + by rewrite <- list_fmap_compose, list_fmap_id.
Qed.

Lemma slice_subset {A} (l : list A) i j x : x ∈ slice l i j -> x ∈ l.
Proof.
  unfold slice. intros (k & Hk & _)%elem_of_take.
  rewrite lookup_drop in Hk. by eapply list_elem_of_lookup_2.
Qed.

Lemma api_fetch_kline_fst B r s p :
  api_utils.fetch_kline B r s = Ret p -> p.1 = s.
Proof.
  unfold api_utils.fetch_kline.
  destruct (api_utils.fetch r) as [[?|df]|?]; try by intros [= <-].
  destruct (length df <? 25)%nat; [by intros [= <-]|].
  destruct (predict_up df); [by intros [= <-] | done].
Qed.

Lemma api_fetch_kline_tag B net t s :
  returns (api_utils.fetch_kline B (net t s) s) ->
  api_utils.fetch_kline B (net t s) s = Ret (s, api_tag B net t s).
Proof.
  intros [[s' r] Hp]. unfold api_tag. rewrite Hp.
  by apply api_fetch_kline_fst in Hp as <-.
Qed.

Lemma subscript_snapshot universe (c : gmap string string) :
  (forall s, s ∈ universe -> is_Some (c !! s)) ->
  comprehension (api_utils.subscript c) universe = Ret (snapshot universe c).
Proof.
  intros Hc. unfold snapshot. rewrite <- comprehension_total.
  apply comprehension_ext. intros s Hs. unfold api_utils.subscript.
  by destruct (Hc s Hs) as [r ->].
Qed.

Lemma merge_covers universe rs st :
  covers universe st -> forall s, s ∈ universe -> is_Some (merge_results rs (cache st) !! s).
Proof.
  intros Hc s Hs. apply elem_of_dom. rewrite merge_dom.
  apply elem_of_union_l, elem_of_dom. by apply Hc.
Qed.

Lemma spec_step_covers tag universe interval st batch :
  covers universe st -> covers universe (spec_step tag universe interval st batch).
Proof. intros Hc s Hs. unfold spec_step. simpl. by apply (merge_covers universe). Qed.

Lemma api_batch_body_spec B net group_size interval i st :
  (forall t s, returns (api_utils.fetch_kline B (net t s) s)) ->
  covers (api_utils.SYMBOLS B) st ->
  api_utils.batch_body B net group_size interval i st
    = (spec_step (api_tag B net) (api_utils.SYMBOLS B) interval st
         (slice (api_utils.SYMBOLS B) i (i + group_size)), None).
Proof.
  intros Htot Hc. unfold api_utils.batch_body.
  rewrite (comprehension_ext _ (fun s => Ret (s, api_tag B net (tick st) s)))
    by (intros s _; by apply api_fetch_kline_tag).
  rewrite comprehension_total.
  rewrite subscript_snapshot by (by apply (merge_covers (api_utils.SYMBOLS B))).
  unfold spec_step. by rewrite <- app_assoc.
Qed.

Lemma api_for_loop_spec B net group_size interval indices st :
  (forall t s, returns (api_utils.fetch_kline B (net t s) s)) ->
  covers (api_utils.SYMBOLS B) st ->
  api_utils.for_loop B net group_size interval indices st
    = (spec_pass (api_tag B net) (api_utils.SYMBOLS B) interval
         ((fun i => slice (api_utils.SYMBOLS B) i (i + group_size)) <$> indices) st,
       None).
Proof.
  intros Htot. revert st. induction indices as [|i indices IH]; intros st Hc; [done|].
  cbn [api_utils.for_loop]. rewrite api_batch_body_spec by done.
  rewrite IH by (by apply spec_step_covers). done.
Qed.

Lemma api_one_pass_spec B net group_size interval st :
  (0 < group_size)%nat ->
  (forall t s, returns (api_utils.fetch_kline B (net t s) s)) ->
  covers (api_utils.SYMBOLS B) st ->
  api_utils.one_pass B net group_size interval st
    = (spec_pass (api_tag B net) (api_utils.SYMBOLS B) interval
         (chunks group_size (api_utils.SYMBOLS B)) st, None).
Proof.
  intros Hg Htot Hc. unfold api_utils.one_pass, py_range.
  destruct (Nat.eqb_spec group_size 0); [lia|].
  rewrite api_for_loop_spec by done. by rewrite slices_chunks, drop_0.
Qed.

Lemma api_fetch_kline_total B r s :
  (forall df, returns (predict_up df)) -> returns (api_utils.fetch_kline B r s).
Proof.
  intros Hp. unfold api_utils.fetch_kline, returns.
  destruct (api_utils.fetch r) as [[?|df]|?]; eauto.
  destruct (length df <? 25)%nat; eauto.
  destruct (Hp df) as [p ->]. simpl. eauto.
Qed.
End Sched.

Lemma spec_pass_events tag universe interval batches st :
  exists events,
    log (spec_pass tag universe interval batches st) = log st ++ events /\
    count is_persist events = length batches /\
    count is_publish events = length batches /\
    count (is_sleep interval) events = length batches /\
    forallb (in_universe_order universe) events = true.
Proof.
  unfold spec_pass. revert st.
  induction batches as [|b batches IH]; intros st; simpl.
  - exists []. by rewrite app_nil_r.
  - destruct (IH (spec_step tag universe interval st b))
      as (evs & Hlog & Hp & Hu & Hs & Ho).
    pose (c := merge_results ((fun s => (s, tag (tick st) s)) <$> b) (cache st)).
    exists ([Persisted c; Emitted (snapshot universe c); Slept interval] ++ evs).
    split; [rewrite Hlog; unfold spec_step; simpl; by rewrite <- app_assoc|].
    unfold count in *. cbn [app List.filter is_persist is_publish is_sleep].
    rewrite Nat.eqb_refl. cbn [length forallb in_universe_order].
    rewrite Hp, Hu, Hs, Ho. repeat split; try done.
    rewrite bool_decide_true; [done|]. unfold snapshot.
    rewrite <- list_fmap_compose. apply list_fmap_id.
Qed.

Lemma setdefaults_lookup B (c : gmap string string) s :
  api_utils.setdefaults B c !! s =
    match c !! s with
    | Some r => Some r
    | None => if decide (s ∈ api_utils.SYMBOLS B) then Some (render Pending) else None
    end.
Proof.
  unfold api_utils.setdefaults. revert c.
  induction (api_utils.SYMBOLS B) as [|s' l IH]; intros c.
  - cbn [foldl]. destruct (c !! s); [done|].
    by destruct (decide (s ∈ [])) as [?%elem_of_nil|].
  - cbn [foldl]. rewrite IH. destruct (c !! s') as [r'|] eqn:Hs'.
    + destruct (c !! s) as [r|] eqn:Hs; [done|].
      destruct (decide (s ∈ l)) as [Hin|Hnin].
      * rewrite decide_True; [done | by right].
      * rewrite decide_False; [done|].
        intros [->|?]%elem_of_cons; [congruence | done].
    + destruct (decide (s = s')) as [->|Hne].
      * rewrite lookup_insert_eq, Hs'. rewrite decide_True; [done | left].
      * rewrite lookup_insert_ne by done. destruct (c !! s); [done|].
        destruct (decide (s ∈ l)) as [Hin|Hnin].
        -- rewrite decide_True; [done | by right].
        -- rewrite decide_False; [done|].
           intros [->|?]%elem_of_cons; done.
Qed.

Lemma setdefaults_covers B (c : gmap string string) :
  covers (api_utils.SYMBOLS B) (api_utils.start B c).
Proof.
  intros s Hs. unfold api_utils.start. simpl. rewrite setdefaults_lookup.
  destruct (c !! s); [by eexists|]. rewrite decide_True by done. by eexists.
Qed.





(** ** A scoring failure *)

Section ScoringFailure.
Context `{!Externals}.

Lemma api_fetch_kline_scoring_raises B body rows df e sym :
  assoc "data" body = Some (JArr rows) ->
  comprehension decode_row rows = Ret df ->
  (25 <= length df)%nat ->
  predict_up df = Raise e ->
  api_utils.fetch_kline B (Ret (JObj body)) sym = Raise e.
Proof.
  intros Hd Hdec Hlen Hp. destruct rows as [|r rows].
  { simpl in Hdec. inversion Hdec; subst. simpl in Hlen. lia. }
  unfold api_utils.fetch_kline. rewrite (api_fetch_rows _ _ _ Hd), Hdec. simpl.
  destruct (Nat.ltb_spec (length df) 25); [lia|]. by rewrite Hp.
Qed.

Lemma web_fetch_kline_scoring_raises body rows df e sym :
  assoc "data" body = Some (JArr rows) ->
  comprehension decode_row rows = Ret df ->
  (25 <= length df)%nat ->
  predict_up df = Raise e ->
  web.fetch_kline (Ret (JObj body)) sym = (sym, render AnalysisFailed).
Proof.
  intros Hd Hdec Hlen Hp.
  unfold web.fetch_kline, web.analyse. rewrite (web_fetch_rows _ _ Hd), Hdec. simpl.
  destruct (Nat.ltb_spec (length df) 25); [lia|]. by rewrite Hp.
Qed.

(** An exception in the gather of a batch leaves the loop with the cache
    and the log as they were. *)
Lemma api_batch_body_raises B net group_size interval i st :
  raises (comprehension (fun s => api_utils.fetch_kline B (net (tick st) s) s)
            (slice (api_utils.SYMBOLS B) i (i + group_size))) ->
  exists e, api_utils.batch_body B net group_size interval i st
    = (mkState (cache st) (S (tick st)) (log st), Some e).
Proof. intros [e He]. exists e. unfold api_utils.batch_body. by rewrite He. Qed.

Lemma range_from_first fuel stop step :
  (0 < stop)%nat -> (0 < fuel)%nat ->
  exists rest, range_from fuel 0 stop step = 0%nat :: rest.
Proof.
  intros Hs Hf. destruct fuel as [|fuel]; [lia|]. simpl.
  destruct (Nat.ltb_spec 0 stop); [by eexists | lia].
Qed.

Lemma api_rotating_analysis_stops B net group_size interval loaded passes sym :
  (0 < group_size)%nat ->
  sym ∈ slice (api_utils.SYMBOLS B) 0 (0 + group_size) ->
  raises (api_utils.fetch_kline B (net 0%nat sym) sym) ->
  exists e, api_utils.rotating_analysis B net group_size interval loaded (S passes)
    = (mkState (api_utils.setdefaults B loaded) 1 [], Some e).
Proof.
  intros Hg Hin Hr.
  assert (0 < length (api_utils.SYMBOLS B))%nat as Hn.
  { apply slice_subset in Hin. destruct (api_utils.SYMBOLS B); [|simpl; lia].
    by apply elem_of_nil in Hin. }
  destruct (api_batch_body_raises B net group_size interval 0
              (api_utils.start B loaded)) as [e He].
  { by apply (comprehension_raises _ _ sym). }
  exists e. unfold api_utils.rotating_analysis. cbn [api_utils.while_true].
  unfold api_utils.one_pass, py_range.
  destruct (Nat.eqb_spec group_size 0); [lia|].
  destruct (range_from_first (length (api_utils.SYMBOLS B))
              (length (api_utils.SYMBOLS B)) group_size Hn Hn) as [rest ->].
  cbn [api_utils.for_loop]. by rewrite He.
Qed.

Lemma web_while_true_runs SYMBOLS net group_size interval passes st :
  (0 < group_size)%nat ->
  (web.while_true SYMBOLS net group_size interval passes st).2 = None.
Proof.
  intros Hg. revert st. induction passes as [|n IH]; intros st; [done|].
  cbn [web.while_true]. rewrite web_one_pass_spec by done. apply IH.
Qed.

Lemma test_analyze_symbol_caught response sym :
  raises (test.analyse response) ->
  test.analyze_symbol response sym = (sym, "롱", Fz 0).
Proof. intros [e He]. unfold test.analyze_symbol. by rewrite He. Qed.

End ScoringFailure.

(** C3, on the code.  When the classifier pipeline raises [e] for a symbol
    of the first batch, api_utils.py has no handler around it: [fetch_kline]
    raises [e], the exception leaves [rotating_analysis], and the scheduler
    ends after that batch whatever the number of passes still to run, with
    nothing merged, persisted or published, the results of the other symbols
    of the batch included.  On the same input web.py publishes AnalysisFailed
    and its scheduler keeps running; test.py answers every failure of its
    analysis with the default direction and rate 0. *)
Theorem scoring_failure_ends_api_utils_scheduler `{!Externals}
    (B : api_utils.boot) (net : network) (group_size interval : nat)
    (loaded : gmap string string) (passes : nat) (sym : string)
    (body : list (string * json)) (rows : list json) (df : list Bar) (e : exn)
    (Hg : (0 < group_size)%nat)
    (Hin : sym ∈ slice (api_utils.SYMBOLS B) 0 (0 + group_size))
    (Hnet : net 0%nat sym = Ret (JObj body))
    (Hdata : assoc "data" body = Some (JArr rows))
    (Hdec : comprehension decode_row rows = Ret df)
    (Hlen : (25 <= length df)%nat)
    (Hfail : predict_up df = Raise e) :
  api_utils.fetch_kline B (net 0%nat sym) sym = Raise e /\
  (exists e', api_utils.rotating_analysis B net group_size interval loaded (S passes)
     = (mkState (api_utils.setdefaults B loaded) 1 [], Some e')) /\
  web.fetch_kline (net 0%nat sym) sym = (sym, render AnalysisFailed) /\
  (web.rotating_analysis (api_utils.SYMBOLS B) net group_size interval loaded
     (S passes)).2 = None /\
  (forall response, raises (test.analyse response) ->
     test.analyze_symbol response sym = (sym, "롱", Fz 0)).
Proof.
  assert (api_utils.fetch_kline B (net 0%nat sym) sym = Raise e) as Hraise.
  { rewrite Hnet. by eapply api_fetch_kline_scoring_raises. }
  split; [exact Hraise|]. split; [|split; [|split]].
  - apply (api_rotating_analysis_stops _ _ _ _ _ _ sym); [done..|]. by exists e.
  - rewrite Hnet. by eapply web_fetch_kline_scoring_raises.
  - by apply web_while_true_runs.
  - intros response. apply test_analyze_symbol_caught.
Qed.

Lemma scoring_failure_ends_api_utils_scheduler_witness :
  let E := refusing_one_class in
  let B := api_utils.mkBoot [] ["BTC_USDT"; "ETH_USDT"] 1 [] in
  api_utils.fetch_kline B (flat_btc 0%nat "BTC_USDT") "BTC_USDT" = Raise ValueError /\
  (exists e, api_utils.main B flat_btc ∅ 3 =
     (mkState (api_utils.setdefaults B ∅) 1 [], Some e)) /\
  web.fetch_kline (flat_btc 0%nat "BTC_USDT") "BTC_USDT"
    = ("BTC_USDT", render AnalysisFailed).
Proof.
  intros E B.
  pose proof (@scoring_failure_ends_api_utils_scheduler E B flat_btc 30 60 ∅ 2
    "BTC_USDT" _ (flat_rows 30) (decoded (flat_rows 30)) ValueError
    ltac:(lia) ltac:(apply list_elem_of_In; simpl; auto)
    eq_refl eq_refl eq_refl ltac:(vm_compute; lia) eq_refl)
    as (Hf & Hs & Hw & _).
  split; [exact Hf|]. split; [exact Hs | exact Hw].
Defined.

(** ** What the result cache holds *)

Section Coverage.
Context `{!Externals}.

Lemma api_gather_pairs B net t batch results :
  comprehension (fun s => api_utils.fetch_kline B (net t s) s) batch = Ret results ->
  results = (fun s => (s, api_tag B net t s)) <$> batch.
Proof.
  revert results. induction batch as [|s batch IH]; intros results Hr; simpl in Hr.
  - by inversion Hr.
  - apply bind_Ret_inv in Hr as (p & Hp & Hr).
    apply bind_Ret_inv in Hr as (ps & Hps & Hr). inversion Hr; subst.
    rewrite fmap_cons, <- (IH ps Hps). f_equal.
    rewrite api_fetch_kline_tag in Hp by (by eexists). by inversion Hp.
Qed.

Lemma pairs_fst (f : string -> string) (batch : list string) :
  ((fun s => (s, f s)) <$> batch).*1 = batch.
Proof. rewrite <- list_fmap_compose. apply list_fmap_id. Qed.

(** The cache one iteration of the loop leaves in api_utils.py. *)
Lemma api_batch_body_cache B net group_size interval i st :
  let batch := slice (api_utils.SYMBOLS B) i (i + group_size) in
  let st' := (api_utils.batch_body B net group_size interval i st).1 in
  cache st' = cache st \/
  cache st' = merge_results ((fun s => (s, api_tag B net (tick st) s)) <$> batch)
                            (cache st).
Proof.
  intros batch st'. unfold st', api_utils.batch_body. fold batch.
  destruct (comprehension _ batch) as [results|e] eqn:Hr; [|by left].
  right. apply api_gather_pairs in Hr as ->.
  by destruct (comprehension _ (api_utils.SYMBOLS B)).
Qed.

Lemma setdefaults_dom B (c : gmap string string) :
  dom (api_utils.setdefaults B c) = dom c ∪ list_to_set (api_utils.SYMBOLS B).
Proof.
  apply set_eq. intros s.
  rewrite elem_of_union, !elem_of_dom, elem_of_list_to_set, setdefaults_lookup.
  destruct (c !! s) as [r|].
  - split; [by left | by eexists].
  - destruct (decide (s ∈ api_utils.SYMBOLS B)).
    + split; [by right | by eexists].
    + split; [by intros [? ?] | by intros [[? ?]|?]].
Qed.

Lemma api_reachable_dom B net group_size interval loaded st :
  api_reachable B net group_size interval loaded st ->
  dom (cache st) = dom loaded ∪ list_to_set (api_utils.SYMBOLS B).
Proof.
  induction 1 as [|st i Hreach IH].
  - apply setdefaults_dom.
  - destruct (api_batch_body_cache B net group_size interval i st) as [->| ->];
      [done|].
    rewrite merge_dom, pairs_fst, IH. apply set_eq. intros s.
    rewrite !elem_of_union, !elem_of_list_to_set. split; [|tauto].
    intros [?|Hs]; [done|]. right. by eapply slice_subset.
Qed.






(** test.py: after one cycle from the empty cache the rows served are
    those of the symbols analysed, in the order of completion. *)
Lemma batch_update_cycle_keys net order st :
  keys (test.results_cache (test.batch_update_cycle net order st))
    = foldl add_key (keys (test.results_cache st)) order.
Proof.
  unfold test.batch_update_cycle. cbn [test.results_cache].
  generalize (test.results_cache st). induction order as [|s order IH]; intros rc.
  - done.
  - cbn [foldl]. rewrite IH. f_equal. unfold test.analyze_symbol.
    destruct (test.analyse _) as [[sig rate]|e]; apply keys_dict_set.
Qed.


End Coverage.




(** ** Arithmetic of the float model *)

Lemma Qsgn_Qeq a b : (a == b)%Q -> Qsgn a = Qsgn b.
Proof.
  unfold Qeq, Qsgn. destruct a as [n d], b as [n' d']; simpl. intros H.
  destruct n, n'; simpl in *; try reflexivity; try lia.
Qed.

Lemma Qsgn_pos a : (0 < a)%Q -> Qsgn a = 1%Z.
Proof.
  unfold Qlt, Qsgn. destruct a as [n d]; simpl. intros H.
  destruct n; simpl in *; lia.
Qed.

Lemma Qsgn_zero a : (a == 0)%Q -> Qsgn a = 0%Z.
Proof. intros H. by rewrite (Qsgn_Qeq _ _ H). Qed.

Lemma Qeq_bool_false a b : ~ (a == b)%Q -> Qeq_bool a b = false.
Proof.
  intros H. destruct (Qeq_bool a b) eqn:E; [|done].
  by apply Qeq_bool_iff in E.
Qed.

Lemma Qeq_bool_true a b : (a == b)%Q -> Qeq_bool a b = true.
Proof. apply Qeq_bool_iff. Qed.

#[local] Instance feq_equiv : Equivalence feq.
Proof.
  split.
  - by intros [| | |a].
  - by intros [| | |a] [| | |b].
  - intros [| | |a] [| | |b] [| | |c]; simpl; try done. apply Qeq_trans.
Qed.

(** The formula of the RSI on smoothed averages that are not negative. *)
Lemma rsi_of_cases g l :
  (0 <= g)%Q -> (0 <= l)%Q ->
  ((l == 0)%Q -> (g == 0)%Q -> rsi_of g l = NaN) /\
  ((l == 0)%Q -> (0 < g)%Q -> feq (rsi_of g l) (Fin 100)) /\
  ((0 < l)%Q -> feq (rsi_of g l) (Fin (100 - 100 / (1 + g / l)))).
Proof.
  intros Hg Hl. unfold rsi_of, fsub, fdiv, fadd, fneg, Fz. repeat split.
  - intros Hl0 Hg0. rewrite (Qeq_bool_true _ _ Hl0), (Qsgn_zero _ Hg0). done.
  - intros Hl0 Hg0. rewrite (Qeq_bool_true _ _ Hl0), (Qsgn_pos _ Hg0). simpl.
    unfold Qeq. simpl. done.
  - intros Hl0. rewrite (Qeq_bool_false l 0) by lra.
    assert (0 <= g / l)%Q as Hq.
    { apply Qle_shift_div_l; [done|]. lra. }
    rewrite (Qeq_bool_false (inject_Z 1 + g / l) 0).
    + simpl. unfold Qminus. reflexivity.
    + change (inject_Z 1) with 1%Q. lra.
Qed.

Lemma rsi_of_Qeq g g' l l' :
  (g == g')%Q -> (l == l')%Q -> feq (rsi_of g l) (rsi_of g' l').
Proof.
  intros Hg Hl. unfold rsi_of, fsub, fdiv at 2 4, Fz.
  destruct (Qeq_bool l 0) eqn:E.
  - apply Qeq_bool_iff in E. rewrite (Qeq_bool_true l' 0) by (by rewrite <- Hl).
    rewrite (Qsgn_Qeq _ _ Hg). reflexivity.
  - apply Qeq_bool_neq in E. rewrite (Qeq_bool_false l' 0) by (by rewrite <- Hl).
    unfold fadd, fdiv.
    assert (inject_Z 1 + g / l == inject_Z 1 + g' / l')%Q as Hs by (by rewrite Hg, Hl).
    destruct (Qeq_bool (inject_Z 1 + g / l) 0) eqn:E2.
    + apply Qeq_bool_iff in E2.
      rewrite (Qeq_bool_true (inject_Z 1 + g' / l') 0) by (by rewrite <- Hs).
      reflexivity.
    + apply Qeq_bool_neq in E2.
      rewrite (Qeq_bool_false (inject_Z 1 + g' / l') 0) by (by rewrite <- Hs).
      simpl. by rewrite Hs.
Qed.

Lemma rsi_of_percent g l :
  (0 <= g)%Q -> (0 <= l)%Q -> percent_or_nan (rsi_of g l).
Proof.
  intros Hg Hl. destruct (rsi_of_cases g l Hg Hl) as (H1 & H2 & H3).
  destruct (Qlt_le_dec 0 l) as [Hpos|Hz].
  - specialize (H3 Hpos). destruct (rsi_of g l) as [| | |q]; simpl in *; try done.
    rewrite H3.
    assert (0 <= g / l)%Q as Hq by (apply Qle_shift_div_l; [done | lra]).
    assert (0 < 100 / (1 + g / l) <= 100)%Q as [Ha Hb].
    { split.
      - apply Qlt_shift_div_l; lra.
      - apply Qle_shift_div_r; [lra|]. nra. }
    lra.
  - assert (l == 0)%Q as Hl0 by lra.
    destruct (Qlt_le_dec 0 g) as [Hgp|Hgz].
    + specialize (H2 Hl0 Hgp). destruct (rsi_of g l) as [| | |q]; simpl in *; try done.
      rewrite H2. lra.
    + rewrite H1; [done | done | lra].
Qed.

(** ** The smoothing kernel on finite values *)

Lemma ewm_step_fin a w x :
  exists w', ewm_step (Fin a) (Fin w, Fz 1) (Fin x) = (Fin w', Fz 1) /\
             (w' == (1 - a) * w + a * x)%Q.
Proof.
  unfold ewm_step. cbn [isnan fmul fsub fadd fneg Fz fne].
  destruct (Qeq_bool w x) eqn:E; cbn [negb].
  - apply Qeq_bool_iff in E. exists w. split; [done|]. rewrite <- E. ring.
  - cbn [fdiv]. rewrite Qeq_bool_false.
    + eexists. split; [reflexivity|]. field.
      change (inject_Z 1) with 1%Q. intros H. ring_simplify in H. discriminate.
    + change (inject_Z 1) with 1%Q. intros H. ring_simplify in H. discriminate.
Qed.

Lemma ewm_from_fin a w y xs ys :
  (w == y)%Q -> Forall2 Qeq xs ys ->
  exists out, ewm_from (Fin a) (Fin w, Fz 1) (Fin <$> xs) = Fin <$> out /\
              Forall2 Qeq out (wilder_from a y ys).
Proof.
  intros Hw Hxs. revert w y Hw.
  induction Hxs as [|x x' xs ys Hx Hxs IH]; intros w y Hw.
  - by exists [].
  - destruct (ewm_step_fin a w x) as (w' & Hstep & Hw').
    destruct (IH w' ((1 - a) * y + a * x')%Q) as (out & Hout & Hall).
    { by rewrite Hw', Hw, Hx. }
    exists (w' :: out). rewrite fmap_cons. cbn [ewm_from wilder_from].
    rewrite Hstep. cbn [fst]. rewrite Hout. split; [done|].
    constructor; [by rewrite Hw', Hw, Hx | done].
Qed.

(** A series that starts with a missing value and goes on with finite ones. *)
Lemma ewm_mean_nan_fin a xs ys :
  Forall2 Qeq xs ys ->
  exists out, ewm_mean (Fin a) (NaN :: (Fin <$> xs)) = NaN :: (Fin <$> out) /\
              Forall2 Qeq out (wilder a ys).
Proof.
  intros Hxs. destruct Hxs as [|x x' xs ys Hx Hxs].
  - by exists [].
  - destruct (ewm_from_fin a x x' xs ys Hx Hxs) as (out & Hout & Hall).
    exists (x :: out). rewrite !fmap_cons. cbn [ewm_mean ewm_from ewm_step isnan fst].
    rewrite Hout. split; [done|]. by constructor.
Qed.

Lemma zip_with_fsub_fin l1 l2 :
  zip_with fsub (Fin <$> l1) (Fin <$> l2) = Fin <$> zip_with Qminus l1 l2.
Proof.
  revert l2. induction l1 as [|x l1 IH]; intros [|y l2]; try done.
  rewrite !fmap_cons. cbn [zip_with]. by rewrite IH.
Qed.

Lemma diff_fin c cs :
  diff (Fin <$> (c :: cs)) = NaN :: (Fin <$> deltas (c :: cs)).
Proof.
  cbn [deltas]. rewrite <- zip_with_fsub_fin. by rewrite fmap_cons.
Qed.

Lemma clipped_gain_spec d : (clipped_gain d == gain_of d)%Q.
Proof.
  unfold clipped_gain, gain_of.
  destruct (Qlt_le_dec d 0).
  - symmetry. apply Q.max_r. lra.
  - symmetry. apply Q.max_l. lra.
Qed.

Lemma clipped_loss_spec d : (clipped_loss d == loss_of d)%Q.
Proof.
  unfold clipped_loss, loss_of.
  destruct (Qlt_le_dec 0 d).
  - rewrite Q.max_r; lra.
  - rewrite Q.max_l; lra.
Qed.

Lemma gain_fin ds :
  clip_lower0 <$> (NaN :: (Fin <$> ds)) = NaN :: (Fin <$> (clipped_gain <$> ds)).
Proof.
  rewrite fmap_cons. f_equal. rewrite <- !list_fmap_compose.
  apply list_fmap_ext. intros _ d _. simpl. unfold clip_lower0, clipped_gain. simpl.
  change (inject_Z 0) with 0%Q. by destruct (Qlt_le_dec d 0).
Qed.

Lemma loss_fin ds :
  fneg <$> (clip_upper0 <$> (NaN :: (Fin <$> ds)))
    = NaN :: (Fin <$> (clipped_loss <$> ds)).
Proof.
  rewrite !fmap_cons. f_equal. rewrite <- !list_fmap_compose.
  apply list_fmap_ext. intros _ d _. simpl. unfold clip_upper0, clipped_loss. simpl.
  change (inject_Z 0) with 0%Q. by destruct (Qlt_le_dec 0 d).
Qed.

Lemma fmap_rsi_of G L :
  (fun x => fsub (Fz 100) (fdiv (Fz 100) (fadd (Fz 1) x)))
    <$> zip_with fdiv (Fin <$> G) (Fin <$> L)
  = zip_with rsi_of G L.
Proof.
  revert L. induction G as [|g G IH]; intros [|l L]; try done.
  rewrite !fmap_cons. cbn [zip_with]. rewrite fmap_cons, IH. done.
Qed.

Lemma zip_rsi_of_feq G G' L L' :
  Forall2 Qeq G G' -> Forall2 Qeq L L' ->
  Forall2 feq (zip_with rsi_of G L) (zip_with rsi_of G' L').
Proof.
  intros HG. revert L L'. induction HG as [|g g' G G' Hg HG IH];
    intros L L' HL; [constructor|].
  destruct HL as [|l l' L L' Hl HL]; [constructor|].
  cbn [zip_with]. constructor; [by apply rsi_of_Qeq | by apply IH].
Qed.

(** [compute_rsi] on a series of finite prices: no value at the first
    index, then the formula on averages that agree with the smoothed gains
    and losses. *)
Lemma compute_rsi_fin period c cs :
  period <> 0%nat ->
  let a := 1 # Pos.of_nat period in
  let ds := deltas (c :: cs) in
  exists G L,
    test.compute_rsi (Fin <$> (c :: cs)) period = Ret (NaN :: zip_with rsi_of G L) /\
    Forall2 Qeq G (wilder a (gain_of <$> ds)) /\
    Forall2 Qeq L (wilder a (loss_of <$> ds)).
Proof.
  intros Hp a ds. unfold test.compute_rsi.
  destruct (Nat.eqb_spec period 0); [done|].
  rewrite diff_fin, gain_fin, loss_fin. fold ds. fold a.
  destruct (ewm_mean_nan_fin a (clipped_gain <$> ds) (gain_of <$> ds))
    as (G & -> & HG).
  { apply Forall2_fmap, Forall_Forall2_diag, Forall_forall.
    intros d _. apply clipped_gain_spec. }
  destruct (ewm_mean_nan_fin a (clipped_loss <$> ds) (loss_of <$> ds))
    as (L & -> & HL).
  { apply Forall2_fmap, Forall_Forall2_diag, Forall_forall.
    intros d _. apply clipped_loss_spec. }
  exists G, L. split; [|done]. cbn [zip_with fdiv fmap list_fmap].
  cbn [fadd fdiv fsub fneg]. f_equal. f_equal. apply fmap_rsi_of.
Qed.

Lemma wilder_from_nonneg a y xs :
  (0 <= a <= 1)%Q -> (0 <= y)%Q -> Forall (fun x => 0 <= x)%Q xs ->
  Forall (fun x => 0 <= x)%Q (wilder_from a y xs).
Proof.
  intros [Ha0 Ha1] Hy Hxs. revert y Hy.
  induction Hxs as [|x xs Hx Hxs IH]; intros y Hy; cbn [wilder_from];
    constructor.
  - nra.
  - apply IH. nra.
Qed.

Lemma wilder_nonneg a xs :
  (0 <= a <= 1)%Q -> Forall (fun x => 0 <= x)%Q xs ->
  Forall (fun x => 0 <= x)%Q (wilder a xs).
Proof.
  intros Ha [|x xs' Hx Hxs]; cbn [wilder]; constructor; [done|].
  by apply wilder_from_nonneg.
Qed.

Lemma wilder_from_pos a y xs :
  (0 <= a <= 1)%Q -> (0 < y)%Q -> Forall (fun x => 0 < x)%Q xs ->
  Forall (fun x => 0 < x)%Q (wilder_from a y xs).
Proof.
  intros [Ha0 Ha1] Hy Hxs. revert y Hy.
  induction Hxs as [|x xs Hx Hxs IH]; intros y Hy; cbn [wilder_from];
    constructor.
  - destruct (Qlt_le_dec 0 a); nra.
  - apply IH. destruct (Qlt_le_dec 0 a); nra.
Qed.

Lemma wilder_pos a xs :
  (0 <= a <= 1)%Q -> Forall (fun x => 0 < x)%Q xs ->
  Forall (fun x => 0 < x)%Q (wilder a xs).
Proof.
  intros Ha [|x xs' Hx Hxs]; cbn [wilder]; constructor; [done|].
  by apply wilder_from_pos.
Qed.

Lemma wilder_from_zero a y xs :
  (y == 0)%Q -> Forall (fun x => x == 0)%Q xs ->
  Forall (fun x => x == 0)%Q (wilder_from a y xs).
Proof.
  intros Hy Hxs. revert y Hy.
  induction Hxs as [|x xs Hx Hxs IH]; intros y Hy; cbn [wilder_from];
    constructor.
  - rewrite Hy, Hx. ring.
  - apply IH. rewrite Hy, Hx. ring.
Qed.

Lemma wilder_zero a xs :
  Forall (fun x => x == 0)%Q xs -> Forall (fun x => x == 0)%Q (wilder a xs).
Proof.
  intros [|x xs' Hx Hxs]; cbn [wilder]; constructor; [done|].
  by apply wilder_from_zero.
Qed.

Lemma period_alpha period : (0 <= 1 # Pos.of_nat period <= 1)%Q.
Proof. unfold Qle. simpl. lia. Qed.

Lemma rising_deltas c cs :
  rising (c :: cs) -> Forall (fun d => 0 < d)%Q (deltas (c :: cs)).
Proof.
  cbn [deltas]. revert c. induction cs as [|c' cs IH]; intros c Hr; [constructor|].
  cbn [zip_with]. destruct Hr as [Hlt Hr]. constructor; [lra|]. by apply IH.
Qed.

Lemma zip_rsi_of_Forall (PG PL : Q -> Prop) (P : float -> Prop) G L :
  (forall g l, PG g -> PL l -> P (rsi_of g l)) ->
  Forall PG G -> Forall PL L -> Forall P (zip_with rsi_of G L).
Proof.
  intros HP HG. revert L. induction HG as [|g G Hg HG IH]; intros L HL;
    [constructor|].
  destruct HL as [|l L Hl HL]; [constructor|].
  cbn [zip_with]. constructor; [by apply HP | by apply IH].
Qed.

Lemma Forall2_Qeq_Forall (P : Q -> Prop) xs ys :
  (forall x y, (x == y)%Q -> P y -> P x) ->
  Forall2 Qeq xs ys -> Forall P ys -> Forall P xs.
Proof.
  intros HP H. induction H as [|x y xs ys Hxy H IH]; intros Hys; [constructor|].
  apply Forall_cons in Hys as [Hy Hys]. constructor; [by eapply HP | by apply IH].
Qed.

Lemma wilder_length a xs : length (wilder a xs) = length xs.
Proof.
  destruct xs as [|x xs]; [done|]. cbn [wilder length]. f_equal.
  generalize x. induction xs as [|x' xs IH]; intros y; [done|].
  cbn [wilder_from length]. by rewrite IH.
Qed.

Lemma deltas_length c cs : length (deltas (c :: cs)) = length cs.
Proof. cbn [deltas]. rewrite length_zip_with. simpl. lia. Qed.

Lemma gains_nonneg ds : Forall (fun x => 0 <= x)%Q (gain_of <$> ds).
Proof. apply Forall_fmap, Forall_forall. intros d _. apply Q.le_max_r. Qed.

Lemma losses_nonneg ds : Forall (fun x => 0 <= x)%Q (loss_of <$> ds).
Proof. apply Forall_fmap, Forall_forall. intros d _. apply Q.le_max_r. Qed.

(** What [compute_rsi] returns on finite prices. *)
Lemma compute_rsi_properties period c cs :
  period <> 0%nat ->
  exists r,
    test.compute_rsi (Fin <$> (c :: cs)) period = Ret r /\
    Forall2 feq r (wilder_rsi period (c :: cs)) /\
    r !! 0%nat = Some NaN /\
    length r = length (c :: cs) /\
    Forall percent_or_nan r /\
    (rising (c :: cs) ->
     forall t v, (1 <= t)%nat -> r !! t = Some v -> feq v (Fin 100)).
Proof.
  intros Hp. destruct (compute_rsi_fin period c cs Hp) as (G & L & Hr & HG & HL).
  pose proof (period_alpha period) as Ha.
  exists (NaN :: zip_with rsi_of G L). split; [exact Hr|].
  split; [|split; [done|split; [|split]]].
  - cbn [wilder_rsi]. constructor; [done|]. by apply zip_rsi_of_feq.
  - cbn [length]. f_equal. rewrite length_zip_with.
    rewrite (Forall2_length _ _ _ HG), (Forall2_length _ _ _ HL).
    rewrite !wilder_length, !length_fmap, deltas_length. lia.
  - constructor; [done|].
    apply (zip_rsi_of_Forall (fun x => 0 <= x)%Q (fun x => 0 <= x)%Q).
    + intros g l. apply rsi_of_percent.
    + eapply Forall2_Qeq_Forall; [|exact HG|].
      * intros x y Hxy Hy. by rewrite Hxy.
      * apply wilder_nonneg; [done | apply gains_nonneg].
    + eapply Forall2_Qeq_Forall; [|exact HL|].
      * intros x y Hxy Hy. by rewrite Hxy.
      * apply wilder_nonneg; [done | apply losses_nonneg].
  - intros Hrise t v Ht Hv. destruct t as [|t]; [lia|]. cbn in Hv.
    pose proof (rising_deltas c cs Hrise) as Hd.
    assert (Forall (fun x => 0 < x)%Q G) as HGp.
    { eapply Forall2_Qeq_Forall; [|exact HG|].
      - intros x y Hxy Hy. by rewrite Hxy.
      - apply wilder_pos; [done|]. apply Forall_fmap.
        eapply Forall_impl; [exact Hd|]. intros d Hd0. cbv beta in *.
        unfold compose, gain_of. rewrite Q.max_l; lra. }
    assert (Forall (fun x => x == 0)%Q L) as HLz.
    { eapply Forall2_Qeq_Forall; [|exact HL|].
      - intros x y Hxy Hy. by rewrite Hxy.
      - apply wilder_zero. apply Forall_fmap.
        eapply Forall_impl; [exact Hd|]. intros d Hd0. cbv beta in *.
        unfold compose, loss_of. rewrite Q.max_r; lra. }
    pose proof (zip_rsi_of_Forall (fun x => 0 < x)%Q (fun x => x == 0)%Q
                  (fun v => feq v (Fin 100)) G L) as HF.
    assert (Forall (fun v => feq v (Fin 100)) (zip_with rsi_of G L)) as Hall.
    { apply HF; [|done|done]. intros g l Hg Hl. cbv beta in *.
      destruct (rsi_of_cases g l) as (_ & H2 & _); [lra | lra |]. by apply H2. }
    exact (Forall_lookup_1 _ _ _ _ Hall Hv).
Qed.

(** ** Rounding *)




(** ** The indicator policy *)

Lemma ewm_from_length a acc s : length (ewm_from a acc s) = length s.
Proof.
  revert acc. induction s as [|x s IH]; intros acc; [done|].
  cbn [ewm_from length]. by rewrite IH.
Qed.

Lemma ewm_mean_length a s : length (ewm_mean a s) = length s.
Proof. destruct s; [done|]. cbn [ewm_mean length]. by rewrite ewm_from_length. Qed.

Lemma compute_macd_diff_length s : length (test.compute_macd_diff s) = length s.
Proof.
  unfold test.compute_macd_diff.
  rewrite !length_zip_with, !ewm_mean_length, !length_zip_with, !ewm_mean_length. lia.
Qed.

Lemma iloc_last_nonempty s :
  (0 < length s)%nat -> exists x, iloc_last s = Ret x /\ last s = Some x.
Proof.
  intros Hl. unfold iloc_last. destruct (last s) as [x|] eqn:E; [by exists x|].
  apply last_None in E. subst. simpl in Hl. lia.
Qed.

Lemma analyze_symbol_scored `{!Externals} response sym c cs :
  test.get_klines response = Ret (Fin <$> (c :: cs)) ->
  exists rsi macd_diff,
    (r ← test.compute_rsi (Fin <$> (c :: cs)) 14; iloc_last r) = Ret rsi /\
    iloc_last (test.compute_macd_diff (Fin <$> (c :: cs))) = Ret macd_diff /\
    percent_or_nan rsi /\
    test.analyze_symbol response sym =
      (sym, if fgt macd_diff (Fz 0) then "롱" else "숏",
       round1 (fmul (fdiv (fabs (fsub rsi (Fz 50))) (Fz 50)) (Fz 100))).
Proof.
  intros Hget.
  destruct (compute_rsi_properties 14 c cs) as (r & Hr & _ & _ & Hlen & Hpc & _);
    [done|].
  destruct (iloc_last_nonempty r) as (rsi & Hrsi & Hlast);
    [rewrite Hlen; simpl; lia|].
  destruct (iloc_last_nonempty (test.compute_macd_diff (Fin <$> (c :: cs))))
    as (m & Hm & _).
  { rewrite compute_macd_diff_length, length_fmap. simpl. lia. }
  exists rsi, m. split; [by rewrite Hr|]. split; [done|]. split.
  - apply last_Some in Hlast as [l' ->].
    by apply Forall_app in Hpc as [_ [? _]%Forall_cons].
  - unfold test.analyze_symbol, test.analyse. rewrite Hget. cbn [mbind result_bind].
    rewrite Hr. cbn [mbind result_bind]. rewrite Hrsi. cbn [mbind result_bind].
    by rewrite Hm.
Qed.







(** * Further properties of the code *)

(** ** Row decoding *)

Lemma getitem_app `{!Externals} l extra i :
  (i < length l)%nat -> getitem (JArr (l ++ extra)) i = getitem (JArr l) i.
Proof. intros Hi. simpl. by rewrite lookup_app_l. Qed.

(** X1. A k-line row longer than six fields decodes as its first six:
    whatever follows them is never read, be it malformed. *)
Theorem decode_row_ignores_extra_fields `{!Externals} (l extra : list json)
    (Hlen : (6 <= length l)%nat) :
  decode_row (JArr (l ++ extra)) = decode_row (JArr l).
Proof.
  unfold decode_row.
  by rewrite !getitem_app by lia.
Qed.

Lemma decode_row_ignores_extra_fields_witness :
  let E := numbers_only (fun _ => Ret (Fin (1 # 2))) in
  decode_row (JArr ([JInt 1700000000123; JInt 5; JInt 6; JInt 4; JInt 5; JInt 9]
                    ++ [JNull; JStr "junk"]))
  = Ret (mkBar 1700000000 (Fz 5) (Fz 6) (Fz 4) (Fz 5) (Fz 9)).
Proof.
  intros E.
  rewrite (@decode_row_ignores_extra_fields E
             [JInt 1700000000123; JInt 5; JInt 6; JInt 4; JInt 5; JInt 9]
             [JNull; JStr "junk"] ltac:(simpl; lia)).
  reflexivity.
Defined.




(** ** What [fetch_kline] lets out *)

(** X3. [fetch_kline] of api_utils.py raises exactly when the response was
    decoded into at least 25 bars and the classifier pipeline raised, and
    then with the exception of the pipeline; whenever it returns, the pair
    carries the symbol it was called with. *)
Theorem api_fetch_kline_raises_iff `{!Externals} (B : api_utils.boot)
    (response : result json) (sym : string) (e : exn) :
  (api_utils.fetch_kline B response sym = Raise e <->
   exists df, api_utils.fetch response = Ret (inr df) /\
              (25 <= length df)%nat /\ predict_up df = Raise e) /\
  (forall p, api_utils.fetch_kline B response sym = Ret p -> p.1 = sym).
Proof.
  split; [split|].
  - apply api_fetch_kline_raises.
  - intros (df & Hf & Hlen & Hp). unfold api_utils.fetch_kline. rewrite Hf.
    destruct (Nat.ltb_spec (length df) 25); [lia|]. by rewrite Hp.
  - intros p. apply api_fetch_kline_fst.
Qed.

(** X4. Bodies outside the provider's schema.  In api_utils.py a body that
    is no JSON object is tagged RequestFailed, and an object whose [data] is
    null, empty, zero or false is tagged NoResponse.  In web.py a body that
    is an array without the element ["data"] is tagged NoResponse, a body
    that is null, a boolean or a number is tagged RequestFailed, and so is an
    object whose [data] is null. *)
Theorem bodies_outside_schema `{!Externals} (B : api_utils.boot) (sym : string) :
  (forall body, match body with JObj _ => False | _ => True end ->
     api_utils.fetch_kline B (Ret body) sym = Ret (sym, render RequestFailed)) /\
  (forall m v, assoc "data" m = Some v -> truthy v = false ->
     api_utils.fetch_kline B (Ret (JObj m)) sym = Ret (sym, render NoResponse)) /\
  (forall l, existsb (is_str "data") l = false ->
     web.fetch_kline (Ret (JArr l)) sym = (sym, render NoResponse)) /\
  (forall body, match body with
                | JNull | JBool _ | JInt _ | JFloat _ => True
                | _ => False
                end ->
     web.fetch_kline (Ret body) sym = (sym, render RequestFailed)) /\
  (forall m, assoc "data" m = Some JNull ->
     web.fetch_kline (Ret (JObj m)) sym = (sym, render RequestFailed)).
Proof.
  repeat split.
  - by intros [].
  - intros m v Hv Ht. unfold api_utils.fetch_kline, api_utils.fetch.
    cbn [mbind result_bind]. unfold py_get. rewrite Hv.
    change (default (JArr []) (Some v)) with v.
    cbn [mbind result_bind]. by rewrite Ht.
  - intros l Hl. unfold web.fetch_kline, web.fetch. simpl. by rewrite Hl.
  - by intros [].
  - intros m Hm. unfold web.fetch_kline, web.fetch. simpl. by rewrite Hm.
Qed.

(** ** The published percentage *)


(** ** Rendering *)

Lemma round_half_even_Qeq q q' : (q == q')%Q -> round_half_even q = round_half_even q'.
Proof.
  intros Hq. unfold round_half_even. rewrite (Qfloor_comp _ _ Hq). cbv zeta.
  assert ((q - inject_Z (Qfloor q') ?= 1 # 2) = (q' - inject_Z (Qfloor q') ?= 1 # 2))%Q
    as -> by (by rewrite Hq).
  reflexivity.
Qed.










(** X7. The published string tells the kind of outcome: two signals that
    render to the same string are of the same kind, so no score can be read
    as a failure tag or as the placeholder, whatever its percentage. *)
Theorem render_tells_kind (s s' : Signal) (Hsame : render s = render s') :
  kind_of s = kind_of s'.
Proof. destruct s, s'; try reflexivity; simpl in Hsame; discriminate. Qed.

Lemma render_tells_kind_witness :
  kind_of (Long (Fin 90)) = kind_of (Long (Fin (9000 # 100))).
Proof. apply render_tells_kind. reflexivity. Defined.

(** ** The risk adjustment *)

(** X8. The risk adjustment of api_utils.py only lowers a score.  For a
    score between 0 and 1 and margin rates that are not negative, the
    adjusted score is at most the score: a Long of api_utils.py is a Long of
    web.py, a Short of web.py is a Short of api_utils.py, and with a total
    risk of 15% or more no Long is published at all. *)
Theorem risk_only_lowers_the_score `{!Externals} (B : api_utils.boot) (sym : string)
    (p m i : Q)
    (Hrates : api_utils.rates B sym = (Fin m, Fin i))
    (Hp : (0 <= p <= 1)%Q) (Hm : (0 <= m)%Q) (Hi : (0 <= i)%Q) :
  exists a,
    api_utils.adjust B sym (Fin p) = Fin a /\ (a <= p)%Q /\
    (kind_of (api_utils.classify (Fin a)) = KLong ->
     kind_of (web.classify (Fin p)) = KLong) /\
    (kind_of (web.classify (Fin p)) = KShort ->
     kind_of (api_utils.classify (Fin a)) = KShort) /\
    ((15 # 100 <= m + i)%Q -> kind_of (api_utils.classify (Fin a)) <> KLong).
Proof.
  unfold api_utils.adjust. rewrite Hrates. cbn [fadd fsub fneg fmul Fz].
  eexists. split; [reflexivity|].
  change (inject_Z 1) with 1%Q.
  assert (p * (1 + - (m + i)) <= p)%Q as Hle by nra.
  split; [done|].
  unfold api_utils.classify, web.classify, flt, fgt, f0_85, f0_15.
  set (a := (p * (1 + - (m + i)))%Q) in *.
  destruct (Qlt_le_dec (85 # 100) a), (Qlt_le_dec (85 # 100) p),
    (Qlt_le_dec a (15 # 100)), (Qlt_le_dec p (15 # 100));
    cbn [kind_of]; repeat split; try done; try (intros; exfalso; lra);
    intros Hrisk _; unfold a in *; nra.
Qed.

Lemma risk_only_lowers_the_score_witness :
  let E := numbers_only (fun _ => Ret (Fin (9 # 10))) in
  let item := contract "BTC_USDT" "USDT" (1 # 10) (1 # 10) in
  let B := api_utils.bootstrap (Ret (Some [item])) in
  kind_of (web.classify (Fin (9 # 10))) = KLong /\
  exists a, api_utils.adjust B "BTC_USDT" (Fin (9 # 10)) = Fin a /\
            kind_of (api_utils.classify (Fin a)) <> KLong.
Proof.
  intros E item B. split; [reflexivity|].
  destruct (@risk_only_lowers_the_score E B "BTC_USDT" (9 # 10) (1 # 10) (1 # 10)
              eq_refl) as (a & Ha & _ & _ & _ & Hno); try done.
  exists a. split; [exact Ha|]. by apply Hno.
Defined.

(** ** The metadata table of api_utils.py *)

Lemma assoc_dict_set {V} (k k' : string) (v : V) d :
  assoc k (dict_set k' v d) = if String.eqb k k' then Some v else assoc k d.
Proof.
  induction d as [|[k0 v0] d IH]; simpl; [done|].
  destruct (String.eqb_spec k' k0) as [->|Hne]; simpl.
  - by destruct (String.eqb k k0).
  - rewrite IH. destruct (String.eqb_spec k k0) as [->|?]; [|done].
    by destruct (String.eqb_spec k0 k') as [->|?].
Qed.

Lemma assoc_keys {V} (k : string) (d : list (string * V)) :
  k ∈ keys d <-> is_Some (assoc k d).
Proof.
  unfold keys. induction d as [|[k0 v0] d IH]; simpl.
  - split; [by intros ?%elem_of_nil | by intros [? ?]].
  - rewrite elem_of_cons, IH. destruct (String.eqb_spec k k0) as [->|?].
    + split; [by eexists | by left].
    + split; [by intros [?|?] | by right].
Qed.

Lemma collect_last items dm dm' s :
  api_utils.collect items dm = (dm', Ret tt) ->
  assoc s dm' = match last (quoted_as s items) with
                | Some it => Some it
                | None => assoc s dm
                end.
Proof.
  revert dm. induction items as [|it items IH]; intros dm Hc; simpl in Hc.
  - by inversion Hc.
  - unfold quoted_as in *. rewrite filter_cons.
    destruct (is_USDT (quoteCoin it)) eqn:Hq.
    + destruct (symbol it) as [s'|] eqn:Hs; [|by inversion Hc].
      rewrite (IH _ Hc), assoc_dict_set.
      destruct (decide (true = true /\ Some s' = Some s)) as [[_ Heq]|Hn].
      * inversion Heq; subst s'. rewrite String.eqb_refl.
        rewrite last_cons. by destruct (last (filter _ items)).
      * destruct (String.eqb_spec s s') as [->|?]; [|done].
        exfalso. apply Hn. by split.
    + rewrite (IH _ Hc). rewrite decide_False; [done|].
      intros [? _]. congruence.
Qed.

(** X9. After a successful bootstrap, [detail_map] maps a symbol to the
    last contract of the response that is quoted in USDT under that symbol
    (a later duplicate replaces an earlier one), and the universe is exactly
    the symbols that have such an entry. *)
Theorem bootstrap_detail_map (items : list Item) (s : string)
    (Hsym : usdt_have_symbols items) :
  let B := api_utils.bootstrap (Ret (Some items)) in
  assoc s (api_utils.detail_map B) = last (quoted_as s items) /\
  (s ∈ api_utils.SYMBOLS B <-> is_Some (assoc s (api_utils.detail_map B))).
Proof.
  unfold api_utils.bootstrap. simpl.
  destruct (collect_ok items [] Hsym) as (dm & Hc & _). rewrite Hc. simpl.
  split; [|apply assoc_keys].
  rewrite (collect_last _ _ _ s Hc). simpl.
  by destruct (last (quoted_as s items)).
Qed.

Lemma bootstrap_detail_map_witness :
  let items := [contract "BTC_USDT" "USDT" (4 # 1000) (8 # 1000);
                contract "BTC_USD" "USD" (4 # 1000) (8 # 1000);
                contract "BTC_USDT" "USDT" (5 # 1000) (1 # 100)] in
  let B := api_utils.bootstrap (Ret (Some items)) in
  assoc "BTC_USDT" (api_utils.detail_map B)
    = Some (contract "BTC_USDT" "USDT" (5 # 1000) (1 # 100)) /\
  api_utils.SYMBOLS B = ["BTC_USDT"].
Proof.
  intros items B. split; [|reflexivity].
  destruct (bootstrap_detail_map items "BTC_USDT") as [-> _]; [|reflexivity].
  repeat constructor; intros _; by eexists.
Defined.

(** ** The three loaders *)

Lemma named_usdt_have_symbols items :
  named_by_quote items -> usdt_have_symbols items.
Proof.
  unfold named_by_quote, usdt_have_symbols. intros Hn.
  eapply Forall_impl; [exact Hn|]. intros it (s & Hs & _) _. by exists s.
Qed.

Lemma named_have_symbols items :
  named_by_quote items -> Forall (fun it => is_Some (symbol it)) items.
Proof.
  unfold named_by_quote. intros Hn.
  eapply Forall_impl; [exact Hn|]. intros it (s & Hs & _). by exists s.
Qed.

Lemma named_suffix_symbols items :
  named_by_quote items -> suffix_symbols items = usdt_symbols items.
Proof.
  unfold named_by_quote, suffix_symbols, usdt_symbols.
  induction 1 as [|it items (s & Hs & He) Hall IH]; [done|].
  cbn [omap list_omap]. rewrite Hs, !filter_cons, IH. rewrite He.
  destruct (is_USDT (quoteCoin it)).
  - rewrite !decide_True by done. cbn [omap list_omap]. by rewrite Hs.
  - by rewrite !decide_False by done.
Qed.

(** X10. The three loaders agree on a response that follows the provider's
    naming convention: when every contract has a symbol, the symbol ends in
    [_USDT] exactly for the contracts quoted in USDT and no symbol is listed
    twice, api_utils.py, web.py and test.py work on the same universe, in
    the same order. *)
Theorem loaders_agree (items : list Item)
    (Hname : named_by_quote items)
    (Hnd : NoDup (usdt_symbols items)) :
  let universe := api_utils.SYMBOLS (api_utils.bootstrap (Ret (Some items))) in
  web.load_symbols (Ret (Some items)) = Ret universe /\
  test.fetch_symbols (Ret (Some items)) = Ret universe.
Proof.
  intros universe.
  destruct (bootstrap_ok items (named_usdt_have_symbols _ Hname))
    as (_ & _ & _ & _ & Heq).
  unfold universe. rewrite (Heq Hnd). split.
  - apply web_select_ok. by apply named_usdt_have_symbols.
  - unfold test.fetch_symbols. cbn [mbind result_bind default].
    rewrite test_select_ok by (by apply named_have_symbols).
    by rewrite named_suffix_symbols.
Qed.

Lemma loaders_agree_witness :
  let items := [contract "BTC_USDT" "USDT" (4 # 1000) (8 # 1000);
                contract "BTC_USD" "USD" (4 # 1000) (8 # 1000);
                contract "ETH_USDT" "USDT" (5 # 1000) (1 # 100)] in
  web.load_symbols (Ret (Some items)) = Ret ["BTC_USDT"; "ETH_USDT"] /\
  test.fetch_symbols (Ret (Some items)) = Ret ["BTC_USDT"; "ETH_USDT"].
Proof.
  intros items. apply (loaders_agree items).
  - repeat constructor; by eexists.
  - apply (bool_decide_unpack _). by vm_compute.
Defined.

Lemma unnamed_usdt_cases items :
  (usdt_have_symbols items /\
   ~ Exists (fun it => is_USDT (quoteCoin it) = true /\ symbol it = None) items) \/
  (~ usdt_have_symbols items /\
   Exists (fun it => is_USDT (quoteCoin it) = true /\ symbol it = None) items).
Proof.
  unfold usdt_have_symbols. induction items as [|it items IH].
  - left. split; [constructor | by intros ?%Exists_nil].
  - destruct (is_USDT (quoteCoin it)) eqn:Hq, (symbol it) as [s|] eqn:Hs.
    + destruct IH as [[Hall Hno]|[Hnot Hex]].
      * left. split; [constructor; [by eexists | done]|].
        intros [[_ ?]|?]%Exists_cons; [congruence | done].
      * right. split; [|by right]. by intros [_ ?]%Forall_cons.
    + right. split; [|by left].
      intros [Hit _]%Forall_cons. destruct (Hit Hq) as [? ?]. congruence.
    + destruct IH as [[Hall Hno]|[Hnot Hex]].
      * left. split; [constructor; [intros ?; congruence | done]|].
        intros [[? _]|?]%Exists_cons; [congruence | done].
      * right. split; [|by right]. by intros [_ ?]%Forall_cons.
    + destruct IH as [[Hall Hno]|[Hnot Hex]].
      * left. split; [constructor; [intros ?; congruence | done]|].
        intros [[? _]|?]%Exists_cons; [congruence | done].
      * right. split; [|by right]. by intros [_ ?]%Forall_cons.
Qed.

Lemma test_select_KeyError items :
  test.select items = Raise KeyError <-> Exists (fun it => symbol it = None) items.
Proof.
  induction items as [|it items IH]; cbn [test.select].
  - split; [done | by intros ?%Exists_nil].
  - rewrite Exists_cons. destruct (symbol it) as [s|] eqn:Hs; [|by split; [left|]].
    destruct (endswith s "_USDT").
    + destruct (test.select items) as [l|e]; cbn [mbind result_bind].
      * split; [done|]. intros [?|Hex]; [done|]. by apply IH in Hex.
      * rewrite IH. split; [by right | by intros [?|?]].
    + rewrite IH. split; [by right | by intros [?|?]].
Qed.

Lemma web_select_KeyError items :
  web.select items = Raise KeyError <->
  Exists (fun it => is_USDT (quoteCoin it) = true /\ symbol it = None) items.
Proof.
  induction items as [|it items IH]; cbn [web.select].
  - split; [done | by intros ?%Exists_nil].
  - rewrite Exists_cons. destruct (is_USDT (quoteCoin it)) eqn:Hq.
    + destruct (symbol it) as [s|] eqn:Hs; [|by split; [left|]].
      destruct (web.select items) as [l|e]; cbn [mbind result_bind].
      * split; [done|]. intros [[_ ?]|Hex]; [done|]. by apply IH in Hex.
      * rewrite IH. split; [by right | by intros [[_ ?]|?]].
    + rewrite IH. split; [by right | by intros [[? _]|?]].
Qed.

(** X11. A contract without a symbol.  test.py reads the symbol of every
    contract, so its loader raises [KeyError] exactly when some contract of
    the response has none; web.py and api_utils.py read it for the contracts
    quoted in USDT only: web.py raises [KeyError], and api_utils.py prints it
    and goes on with an empty universe, exactly when one of those has
    none. *)
Theorem contract_without_symbol (items : list Item) :
  let B := api_utils.bootstrap (Ret (Some items)) in
  let unnamed (it : Item) := symbol it = None in
  let unnamed_usdt (it : Item) := is_USDT (quoteCoin it) = true /\ symbol it = None in
  (test.fetch_symbols (Ret (Some items)) = Raise KeyError <-> Exists unnamed items) /\
  (web.load_symbols (Ret (Some items)) = Raise KeyError <-> Exists unnamed_usdt items) /\
  (api_utils.printed B = [KeyError] <-> Exists unnamed_usdt items) /\
  (Exists unnamed_usdt items -> api_utils.SYMBOLS B = []).
Proof.
  intros B unnamed unnamed_usdt. split; [apply test_select_KeyError|].
  split; [apply web_select_KeyError|].
  destruct (unnamed_usdt_cases items) as [[Hall Hno]|[Hnot Hex]].
  - destruct (bootstrap_ok items Hall) as (Hp & _). split; [|done].
    unfold B. rewrite Hp. by split.
  - destruct (bootstrap_missing_symbol items Hnot) as [Hs Hp]. split; [|done].
    unfold B. by rewrite Hp.
Qed.

(** ** Several passes *)

Lemma spec_pass_cons tag U iv b batches st :
  spec_pass tag U iv (b :: batches) st
    = spec_pass tag U iv batches (spec_step tag U iv st b).
Proof. reflexivity. Qed.

Lemma spec_pass_tick tag U iv batches st :
  tick (spec_pass tag U iv batches st) = (tick st + length batches)%nat.
Proof.
  revert st. induction batches as [|b bs IH]; intros st; [simpl; lia|].
  rewrite spec_pass_cons, IH. simpl. lia.
Qed.

Lemma spec_pass_covers tag U iv batches st :
  covers U st -> covers U (spec_pass tag U iv batches st).
Proof.
  revert st. induction batches as [|b bs IH]; intros st Hc; [done|].
  rewrite spec_pass_cons. by apply IH, spec_step_covers.
Qed.

Lemma count_app p l1 l2 : count p (l1 ++ l2) = (count p l1 + count p l2)%nat.
Proof. unfold count. by rewrite List.filter_app, length_app. Qed.

Lemma advanced_refl iv U st : advanced 0 iv U st st.
Proof.
  split; [lia|]. exists []. by rewrite app_nil_r.
Qed.

Lemma advanced_trans n m iv U st1 st2 st3 :
  advanced n iv U st1 st2 -> advanced m iv U st2 st3 -> advanced (n + m) iv U st1 st3.
Proof.
  intros (Ht1 & ev1 & Hl1 & Hp1 & Hu1 & Hs1 & Ho1) (Ht2 & ev2 & Hl2 & Hp2 & Hu2 & Hs2 & Ho2).
  split; [lia|]. exists (ev1 ++ ev2).
  rewrite Hl2, Hl1, <- app_assoc, !count_app, forallb_app, Ho1, Ho2.
  repeat split; lia.
Qed.

Lemma spec_pass_advanced tag U iv batches st :
  advanced (length batches) iv U st (spec_pass tag U iv batches st).
Proof.
  split; [apply spec_pass_tick | apply spec_pass_events].
Qed.

Lemma chunks_length {A} (l : list A) b :
  (0 < b)%nat -> length (chunks b l) = ceil_div (length l) b.
Proof. intros Hb. by apply chunks_fuel_length. Qed.

Section Passes.
Context `{!Externals}.

Lemma web_while_true_advanced U net gs iv p st :
  (0 < gs)%nat ->
  exists st', web.while_true U net gs iv p st = (st', None) /\
    advanced (p * ceil_div (length U) gs) iv U st st'.
Proof.
  intros Hg. revert st. induction p as [|p IH]; intros st.
  - exists st. split; [done | apply advanced_refl].
  - cbn [web.while_true]. rewrite web_one_pass_spec by done.
    destruct (IH (spec_pass (web_tag net) U iv (chunks gs U) st)) as (st' & -> & Hadv).
    exists st'. split; [done|]. cbn [Nat.mul].
    eapply advanced_trans; [|exact Hadv].
    rewrite <- (chunks_length U gs Hg). apply spec_pass_advanced.
Qed.

Lemma api_while_true_advanced B net gs iv p st :
  (0 < gs)%nat ->
  (forall df, returns (predict_up df)) ->
  covers (api_utils.SYMBOLS B) st ->
  exists st', api_utils.while_true B net gs iv p st = (st', None) /\
    advanced (p * ceil_div (length (api_utils.SYMBOLS B)) gs) iv (api_utils.SYMBOLS B) st st'.
Proof.
  intros Hg Hp. revert st. induction p as [|p IH]; intros st Hc.
  - exists st. split; [done | apply advanced_refl].
  - cbn [api_utils.while_true].
    rewrite api_one_pass_spec by (try done; intros; by apply api_fetch_kline_total).
    destruct (IH (spec_pass (api_tag B net) (api_utils.SYMBOLS B) iv
                    (chunks gs (api_utils.SYMBOLS B)) st)) as (st' & -> & Hadv).
    { by apply spec_pass_covers. }
    exists st'. split; [done|]. cbn [Nat.mul].
    eapply advanced_trans; [|exact Hadv].
    rewrite <- (chunks_length (api_utils.SYMBOLS B) gs Hg). apply spec_pass_advanced.
Qed.
End Passes.

(** X12. Passes add up.  With a positive batch size the scheduler of web.py
    never stops: after [p] passes over a universe of N symbols it has run
    p * ceil(N/B) batches, and has written the cache file, broadcast the
    snapshot in universe order and slept the interval once for each.  The
    scheduler of api_utils.py does the same as long as the classifier
    pipeline returns. *)
Theorem passes_add_up `{!Externals} (B : api_utils.boot) (net : network)
    (group_size interval : nat) (loaded : gmap string string) (p : nat)
    (Hg : (0 < group_size)%nat) :
  let universe := api_utils.SYMBOLS B in
  let n := (p * ceil_div (length universe) group_size)%nat in
  let done_by (r : outcome) :=
    r.2 = None /\ tick r.1 = n /\
    count is_persist (log r.1) = n /\
    count is_publish (log r.1) = n /\
    count (is_sleep interval) (log r.1) = n /\
    forallb (in_universe_order universe) (log r.1) = true in
  done_by (web.rotating_analysis universe net group_size interval loaded p) /\
  ((forall df, returns (predict_up df)) ->
   done_by (api_utils.rotating_analysis B net group_size interval loaded p)).
Proof.
  intros universe n done_by. split.
  - unfold web.rotating_analysis.
    destruct (web_while_true_advanced universe net group_size interval p
                (web.start loaded) Hg)
      as (st' & -> & Ht & ev & Hl & Hp & Hu & Hs & Ho).
    simpl in Hl, Ht. subst ev. by repeat split.
  - intros Hpipe. unfold api_utils.rotating_analysis.
    destruct (api_while_true_advanced B net group_size interval p
                (api_utils.start B loaded) Hg Hpipe (setdefaults_covers B loaded))
      as (st' & -> & Ht & ev & Hl & Hp & Hu & Hs & Ho).
    simpl in Hl, Ht. subst ev. by repeat split.
Qed.

Lemma passes_add_up_witness :
  let E := numbers_only (fun _ => Ret (Fin (1 # 2))) in
  let B := api_utils.mkBoot [] (symbols 45) 1 [] in
  let r := web.rotating_analysis (symbols 45) timeouts 30 60 ∅ 3 in
  r.2 = None /\ tick r.1 = 6%nat /\ count is_publish (log r.1) = 6%nat.
Proof.
  intros E B r.
  destruct (@passes_add_up E B timeouts 30 60 ∅ 3 ltac:(lia))
    as [(Hn & Ht & _ & Hu & _) _].
  change (api_utils.SYMBOLS B) with (symbols 45) in *.
  done.
Defined.

(** ** Which batch a symbol is fetched in *)

Lemma spec_pass_cache_out tag U iv batches st s :
  s ∉ concat batches ->
  cache (spec_pass tag U iv batches st) !! s = cache st !! s.
Proof.
  revert st. induction batches as [|b bs IH]; intros st Hs; [done|].
  simpl in Hs. apply not_elem_of_app in Hs as [Hb Hbs].
  rewrite spec_pass_cons, IH by done. unfold spec_step. simpl.
  apply merge_lookup_not_in. by rewrite pairs_fst.
Qed.

Lemma spec_pass_cache_in tag U iv batches st k batch s :
  NoDup (concat batches) -> batches !! k = Some batch -> s ∈ batch ->
  cache (spec_pass tag U iv batches st) !! s = Some (tag (tick st + k)%nat s).
Proof.
  revert st k. induction batches as [|b bs IH]; intros st k Hnd Hk Hs; [done|].
  simpl in Hnd. apply NoDup_app in Hnd as (Hb & Hdis & Hbs).
  rewrite spec_pass_cons. destruct k as [|k]; simpl in Hk.
  - inversion Hk; subst b. rewrite spec_pass_cache_out by (by apply Hdis).
    unfold spec_step. simpl. rewrite Nat.add_0_r. by apply merge_lookup_in.
  - rewrite (IH _ k Hbs Hk Hs). unfold spec_step. simpl. do 2 f_equal. lia.
Qed.

Lemma chunks_position {A} (l : list A) b j x :
  (0 < b)%nat -> l !! j = Some x ->
  exists batch, chunks b l !! (j / b)%nat = Some batch /\ x ∈ batch.
Proof.
  intros Hb Hj.
  assert (j < length l)%nat as Hlt by (apply lookup_lt_is_Some; by eexists).
  assert (j / b < length (chunks b l))%nat as Hk.
  { rewrite chunks_length by done. unfold ceil_div.
    replace (length l + b - 1)%nat with ((length l - 1) + 1 * b)%nat by lia.
    rewrite Nat.div_add by lia.
    pose proof (Nat.Div0.div_le_mono j (length l - 1) b ltac:(lia)). lia. }
  destruct (lookup_lt_is_Some_2 _ _ Hk) as [batch Hbatch].
  exists batch. split; [done|].
  apply chunks_fuel_lookup in Hbatch as [-> _].
  apply (list_elem_of_lookup_2 _ (j mod b)).
  rewrite lookup_take_lt by (apply Nat.mod_upper_bound; lia).
  rewrite lookup_drop, <- Hj. f_equal.
  pose proof (Nat.div_mod j b ltac:(lia)). lia.
Qed.

(** X13. In a pass over a universe without duplicates, the symbol at
    position [j] is fetched in batch [j / group_size] of the pass, and when
    the pass is over the cache holds for it the result of that fetch. *)
Theorem pass_stores_batch_result `{!Externals} (B : api_utils.boot) (net : network)
    (group_size interval : nat) (st : state) (j : nat) (s : string)
    (Hg : (0 < group_size)%nat)
    (Hnd : NoDup (api_utils.SYMBOLS B))
    (Hj : api_utils.SYMBOLS B !! j = Some s) :
  let universe := api_utils.SYMBOLS B in
  let t := (tick st + j / group_size)%nat in
  cache (web.one_pass universe net group_size interval st).1 !! s
    = Some (web.fetch_kline (net t s) s).2 /\
  ((forall df, returns (predict_up df)) -> covers universe st ->
   exists r, api_utils.fetch_kline B (net t s) s = Ret (s, r) /\
     cache (api_utils.one_pass B net group_size interval st).1 !! s = Some r).
Proof.
  intros universe t.
  destruct (chunks_position universe group_size j s Hg Hj) as (batch & Hk & Hs).
  assert (NoDup (concat (chunks group_size universe))) as Hnd'.
  { unfold chunks. by rewrite chunks_fuel_concat. }
  split.
  - rewrite web_one_pass_spec by done. simpl.
    by rewrite (spec_pass_cache_in _ _ _ _ _ _ _ _ Hnd' Hk Hs).
  - intros Hpipe Hc. exists (api_tag B net t s). split.
    + apply api_fetch_kline_tag. by apply api_fetch_kline_total.
    + rewrite api_one_pass_spec by (try done; intros; by apply api_fetch_kline_total).
      simpl. by rewrite (spec_pass_cache_in _ _ _ _ _ _ _ _ Hnd' Hk Hs).
Qed.

Lemma pass_stores_batch_result_witness :
  let E := numbers_only (fun _ => Ret (Fin (1 # 2))) in
  let B := api_utils.mkBoot [] ["A_USDT"; "B_USDT"; "C_USDT"] 1 [] in
  let net : network := fun t s =>
    if (t =? 1)%nat then Ret (JObj []) else Raise TimeoutError in
  cache (web.one_pass ["A_USDT"; "B_USDT"; "C_USDT"] net 2 60 (web.start ∅)).1
    !! "C_USDT" = Some (render NoResponse).
Proof.
  intros E B net.
  destruct (@pass_stores_batch_result E B net 2 60 (web.start ∅) 2 "C_USDT"
              ltac:(lia)) as [Hw _]; [|reflexivity|exact Hw].
  apply (bool_decide_unpack _). by vm_compute.
Defined.

(** ** A batch that fails in api_utils.py *)

Lemma comprehension_Raise_inv {A B} (f : A -> result B) l e :
  comprehension f l = Raise e -> exists x, x ∈ l /\ f x = Raise e.
Proof.
  induction l as [|x l IH]; simpl; [done|].
  destruct (f x) as [y|e'] eqn:Hx; simpl.
  - destruct (comprehension f l) as [ys|e'']; simpl; [done|].
    intros [= ->]. destruct IH as (x' & Hin & Hx'); [done|].
    exists x'. split; [by right | done].
  - intros [= ->]. exists x. split; [left | done].
Qed.


Section Reachable.
Context `{!Externals}.

Lemma api_reachable_covers B net gs iv loaded st :
  api_reachable B net gs iv loaded st -> covers (api_utils.SYMBOLS B) st.
Proof.
  intros Hr%api_reachable_dom s Hs. apply elem_of_dom. rewrite Hr.
  by apply elem_of_union_r, elem_of_list_to_set.
Qed.

Lemma api_batch_body_cases B net gs iv i st :
  covers (api_utils.SYMBOLS B) st ->
  let batch := slice (api_utils.SYMBOLS B) i (i + gs) in
  (exists e s, s ∈ batch /\
     api_utils.fetch_kline B (net (tick st) s) s = Raise e /\
     api_utils.batch_body B net gs iv i st
       = (mkState (cache st) (S (tick st)) (log st), Some e)) \/
  api_utils.batch_body B net gs iv i st
    = (spec_step (api_tag B net) (api_utils.SYMBOLS B) iv st batch, None).
Proof.
  intros Hc batch. unfold api_utils.batch_body. fold batch.
  destruct (comprehension _ batch) as [results|e] eqn:Hr.
  - right. apply api_gather_pairs in Hr as ->.
    rewrite subscript_snapshot by (by apply (merge_covers (api_utils.SYMBOLS B))).
    unfold spec_step. by rewrite <- app_assoc.
  - left. apply comprehension_Raise_inv in Hr as (s & Hs & Hf). by exists e, s.
Qed.
End Reachable.

(** X14. In api_utils.py a batch ends in an exception only when the fetch
    of one of its symbols raised it; the results of the other symbols of the
    batch are then dropped: the cache and the log are as before the batch.
    From a state the scheduler can be in, [cache[s]] of line 151 never
    raises. *)
Theorem failed_batch_discards_results `{!Externals} (B : api_utils.boot)
    (net : network) (group_size interval : nat) (loaded : gmap string string)
    (st st' : state) (i : nat) (e : exn)
    (Hreach : api_reachable B net group_size interval loaded st)
    (Hfail : api_utils.batch_body B net group_size interval i st = (st', Some e)) :
  (exists s, s ∈ slice (api_utils.SYMBOLS B) i (i + group_size) /\
     api_utils.fetch_kline B (net (tick st) s) s = Raise e) /\
  cache st' = cache st /\ log st' = log st /\ tick st' = S (tick st).
Proof.
  destruct (api_batch_body_cases B net group_size interval i st
              (api_reachable_covers _ _ _ _ _ _ Hreach))
    as [(e' & s & Hs & Hf & Hb)|Hb]; rewrite Hb in Hfail; [|done].
  inversion Hfail; subst. split; [by exists s | done].
Qed.

Lemma failed_batch_discards_results_witness :
  let E := numbers_only (fun _ => Raise ValueError) in
  let B := api_utils.mkBoot [] ["BTC_USDT"; "ETH_USDT"] 1 [] in
  let net : network := fun _ s =>
    if String.eqb s "ETH_USDT" then Ret (kline_body (rising_rows 25))
    else Raise TimeoutError in
  let st := api_utils.start B ∅ in
  let st' := (api_utils.batch_body B net 30 60 0 st).1 in
  cache st' = cache st /\ log st' = [].
Proof.
  intros E B net st st'.
  assert (api_utils.batch_body B net 30 60 0 st = (st', Some ValueError)) as Hfail
    by (vm_compute; reflexivity).
  destruct (@failed_batch_discards_results E B net 30 60 ∅ st st' 0 ValueError
              (api_reach_start B net 30 60 ∅) Hfail) as (_ & Hc & Hl & _).
  by split.
Defined.



(** X16. An entry of the cache file for a symbol outside the universe is
    never touched: the scheduler of either file keeps it as loaded, in every
    state it can be in. *)
Theorem entries_outside_universe_stay `{!Externals} (B : api_utils.boot)
    (net : network) (group_size interval : nat) (loaded : gmap string string)
    (stw st : state) (s : string)
    (Hout : s ∉ api_utils.SYMBOLS B)
    (Hweb : web_reachable (api_utils.SYMBOLS B) net group_size interval loaded stw)
    (Hapi : api_reachable B net group_size interval loaded st) :
  cache stw !! s = loaded !! s /\ cache st !! s = loaded !! s.
Proof.
  assert (forall i f c, merge_results
            ((fun s => (s, f s)) <$> slice (api_utils.SYMBOLS B) i (i + group_size)) c
            !! s = c !! s) as Hmerge.
  { intros i f c. apply merge_lookup_not_in. rewrite pairs_fst.
    intros Hs. by apply Hout, (slice_subset _ i (i + group_size)). }
  split.
  - clear Hapi. induction Hweb as [|stw i Hreach IH]; [done|].
    rewrite web_batch_body_spec. unfold spec_step. cbn [cache].
    by rewrite Hmerge.
  - clear Hweb. induction Hapi as [|st i Hreach IH].
    + unfold api_utils.start. cbn [cache]. rewrite setdefaults_lookup.
      destruct (loaded !! s); [done|]. by rewrite decide_False.
    + destruct (api_batch_body_cache B net group_size interval i st) as [->| ->];
        [done|]. by rewrite Hmerge.
Qed.

Lemma entries_outside_universe_stay_witness :
  let E := numbers_only (fun _ => Ret (Fin (1 # 2))) in
  let B := api_utils.mkBoot [] ["BTC_USDT"] 1 [] in
  let loaded : gmap string string := {[ "OLD_USDT" := "🟢 Long (90.0%)" ]} in
  let st := (api_utils.batch_body B timeouts 30 60 0 (api_utils.start B loaded)).1 in
  cache st !! "OLD_USDT" = Some "🟢 Long (90.0%)".
Proof.
  intros E B loaded st.
  destruct (@entries_outside_universe_stay E B timeouts 30 60 loaded
              (web.start loaded) st "OLD_USDT") as [_ ->]; [| | |done].
  - by intros [?|?%elem_of_nil]%elem_of_cons.
  - apply web_reach_start.
  - apply api_reach_batch, api_reach_start.
Defined.

(** X17. A batch size of zero stops the scheduler of either file before
    the first fetch: [range] refuses the zero step with a [ValueError], and
    nothing is written, broadcast or slept. *)
Theorem zero_batch_size_stops_scheduler `{!Externals} (B : api_utils.boot)
    (net : network) (interval : nat) (loaded : gmap string string) (passes : nat) :
  web.rotating_analysis (api_utils.SYMBOLS B) net 0 interval loaded (S passes)
    = (mkState loaded 0 [], Some ValueError) /\
  api_utils.rotating_analysis B net 0 interval loaded (S passes)
    = (mkState (api_utils.setdefaults B loaded) 0 [], Some ValueError).
Proof. done. Qed.

(** ** The retrying session, when the provider recovers *)





(** ** The frame of test.py *)


Section Frame.
Context `{!Externals}.


End Frame.



(** ** One cycle of [batch_update] *)

Section Cycle.
Context `{!Externals}.

Lemma analyze_symbol_fst response sym :
  (test.analyze_symbol response sym).1.1 = sym.
Proof.
  unfold test.analyze_symbol. by destruct (test.analyse response) as [[sig rate]|e].
Qed.

Lemma cycle_lookup (net : nat -> string -> test.kline_response) order st k :
  assoc k (test.results_cache (test.batch_update_cycle net order st))
    = if decide (k ∈ order)
      then Some ((test.analyze_symbol (net (test.cycles st) k) k).1.2,
                 (test.analyze_symbol (net (test.cycles st) k) k).2)
      else assoc k (test.results_cache st).
Proof.
  unfold test.batch_update_cycle. cbn [test.results_cache].
  generalize (test.results_cache st).
  induction order as [|s order IH]; intros rc.
  - cbn [foldl]. by destruct (decide (k ∈ [])) as [?%elem_of_nil|].
  - cbn [foldl]. rewrite IH.
    pose proof (analyze_symbol_fst (net (test.cycles st) s) s) as Hs.
    destruct (test.analyze_symbol (net (test.cycles st) s) s) as [[s' sig] rate] eqn:Ha.
    cbn [fst] in Hs. subst s'.
    destruct (decide (k ∈ order)) as [Hin|Hnin].
    + rewrite decide_True; [done | by right].
    + rewrite assoc_dict_set. destruct (String.eqb_spec k s) as [->|Hne].
      * rewrite decide_True by left. by rewrite Ha.
      * rewrite decide_False; [done|]. by intros [?|?]%elem_of_cons.
Qed.
End Cycle.

(** X20. What a cycle of [batch_update] leaves in the cache does not depend
    on the order in which the futures complete: a symbol of the cycle holds
    the signal and rate of its own analysis in that cycle, any other key
    holds what it held before; two completion orders of the same symbols
    give the same lookups (only the order of the rows can differ). *)
Theorem cycle_content_ignores_completion_order `{!Externals}
    (net : nat -> string -> test.kline_response) (order order' : list string)
    (st : test.shared) (k : string)
    (Hperm : order ≡ₚ order') :
  let st1 := test.batch_update_cycle net order st in
  let st2 := test.batch_update_cycle net order' st in
  assoc k (test.results_cache st1) = assoc k (test.results_cache st2) /\
  (k ∈ order ->
   exists signal rate,
     test.analyze_symbol (net (test.cycles st) k) k = (k, signal, rate) /\
     assoc k (test.results_cache st1) = Some (signal, rate)) /\
  (k ∉ order -> assoc k (test.results_cache st1) = assoc k (test.results_cache st)).
Proof.
  intros st1 st2. unfold st1, st2. rewrite !cycle_lookup. split; [|split].
  - destruct (decide (k ∈ order)) as [Hin|Hnin].
    + rewrite decide_True; [done | by rewrite <- Hperm].
    + rewrite decide_False; [done | by rewrite <- Hperm].
  - intros Hin. rewrite decide_True by done.
    pose proof (analyze_symbol_fst (net (test.cycles st) k) k) as Hk.
    destruct (test.analyze_symbol (net (test.cycles st) k) k) as [[s sig] rate].
    cbn [fst] in Hk. subst s. by exists sig, rate.
  - intros Hnin. by rewrite decide_False.
Qed.

Lemma cycle_content_ignores_completion_order_witness :
  let E := numbers_only (fun _ => Ret (Fin (1 # 2))) in
  let net : nat -> string -> test.kline_response := fun _ _ => Raise TimeoutError in
  let st := test.mkShared [] 0 [] in
  assoc "B_USDT" (test.results_cache (test.batch_update_cycle net ["A_USDT"; "B_USDT"] st))
  = assoc "B_USDT" (test.results_cache (test.batch_update_cycle net ["B_USDT"; "A_USDT"] st)).
Proof.
  intros E net st.
  apply (@cycle_content_ignores_completion_order E net
           ["A_USDT"; "B_USDT"] ["B_USDT"; "A_USDT"] st "B_USDT").
  apply Permutation_swap.
Defined.

(** ** The rows of [/api/results] *)

(** X21. The route [/api/results] never lists a symbol twice: a cycle of
    [batch_update] keeps the keys of the cache distinct, whatever the list
    of symbols and the completion order, and the route serves one row for
    each key, in the order of the keys. *)
Theorem api_results_one_row_per_symbol `{!Externals}
    (net : nat -> string -> test.kline_response) (order : list string)
    (st : test.shared)
    (Hnd : NoDup (keys (test.results_cache st))) :
  let st' := test.batch_update_cycle net order st in
  NoDup (keys (test.results_cache st')) /\
  (fun row => row.1.1) <$> test.api_results st' = keys (test.results_cache st') /\
  forall s, s ∈ keys (test.results_cache st') <->
            s ∈ keys (test.results_cache st) \/ s ∈ order.
Proof.
  intros st'.
  destruct (foldl_add_key (keys (test.results_cache st)) order)
    as (r & Hr & _ & Hel & Hnd' & _).
  split; [|split].
  - unfold st'. rewrite batch_update_cycle_keys, Hr. by apply Hnd'.
  - unfold test.api_results, keys. rewrite <- list_fmap_compose.
    by apply list_fmap_ext.
  - intros s. unfold st'. rewrite batch_update_cycle_keys, Hr, elem_of_app, Hel.
    destruct (decide (s ∈ keys (test.results_cache st))); tauto.
Qed.

Lemma api_results_one_row_per_symbol_witness :
  let E := numbers_only (fun _ => Ret (Fin (1 # 2))) in
  let net : nat -> string -> test.kline_response := fun _ _ => Raise TimeoutError in
  let st' := test.batch_update_cycle net ["A_USDT"; "B_USDT"; "A_USDT"]
               (test.mkShared [] 0 []) in
  NoDup (keys (test.results_cache st')) /\
  (fun row => row.1.1) <$> test.api_results st' = ["A_USDT"; "B_USDT"].
Proof.
  intros E net st'.
  destruct (@api_results_one_row_per_symbol E net ["A_USDT"; "B_USDT"; "A_USDT"]
              (test.mkShared [] 0 []) (NoDup_nil_2 (A:=string))) as (Hnd & Hrows & _).
  split; [exact Hnd|]. etrans; [exact Hrows|]. reflexivity.
Defined.

(** ** Series without turning points *)

Lemma falling_deltas c cs :
  falling (c :: cs) -> Forall (fun d => d < 0)%Q (deltas (c :: cs)).
Proof.
  cbn [deltas]. revert c. induction cs as [|c' cs IH]; intros c Hr; [constructor|].
  cbn [zip_with]. destruct Hr as [Hlt Hr]. constructor; [lra|]. by apply IH.
Qed.

Lemma flat_deltas c cs :
  flat (c :: cs) -> Forall (fun d => d == 0)%Q (deltas (c :: cs)).
Proof.
  cbn [deltas]. revert c. induction cs as [|c' cs IH]; intros c Hr; [constructor|].
  cbn [zip_with]. destruct Hr as [Hlt Hr]. constructor; [lra|]. by apply IH.
Qed.

(** The RSI values after the first, when the smoothed gains all satisfy
    [PG] and the smoothed losses all satisfy [PL]. *)
Lemma compute_rsi_all (PG PL : Q -> Prop) (P : float -> Prop) period c cs :
  period <> 0%nat ->
  (forall x y, (x == y)%Q -> PG y -> PG x) ->
  (forall x y, (x == y)%Q -> PL y -> PL x) ->
  Forall PG (wilder (1 # Pos.of_nat period) (gain_of <$> deltas (c :: cs))) ->
  Forall PL (wilder (1 # Pos.of_nat period) (loss_of <$> deltas (c :: cs))) ->
  (forall g l, PG g -> PL l -> P (rsi_of g l)) ->
  exists r, test.compute_rsi (Fin <$> (c :: cs)) period = Ret (NaN :: r) /\
            Forall P r /\ length r = length cs.
Proof.
  intros Hp HPG HPL HG HL HP.
  destruct (compute_rsi_fin period c cs Hp) as (G & L & Hr & HG' & HL').
  exists (zip_with rsi_of G L). split; [exact Hr|]. split.
  - apply (zip_rsi_of_Forall PG PL); [done| |].
    + by eapply Forall2_Qeq_Forall.
    + by eapply Forall2_Qeq_Forall.
  - rewrite length_zip_with, (Forall2_length _ _ _ HG'), (Forall2_length _ _ _ HL').
    rewrite !wilder_length, !length_fmap, deltas_length. lia.
Qed.

Lemma Forall_fmap_impl (P Q' : Q -> Prop) (f : Q -> Q) ds :
  (forall d, P d -> Q' (f d)) -> Forall P ds -> Forall Q' (f <$> ds).
Proof.
  intros Hf Hd. apply Forall_fmap. eapply Forall_impl; [exact Hd|]. exact Hf.
Qed.

Lemma compute_rsi_rising period c cs :
  period <> 0%nat -> rising (c :: cs) ->
  exists r, test.compute_rsi (Fin <$> (c :: cs)) period = Ret (NaN :: r) /\
            Forall (fun v => feq v (Fin 100)) r /\ length r = length cs.
Proof.
  intros Hp Hd%rising_deltas. pose proof (period_alpha period) as Ha.
  apply (compute_rsi_all (fun x => 0 < x)%Q (fun x => x == 0)%Q); try done.
  - intros x y Hxy Hy. by rewrite Hxy.
  - intros x y Hxy Hy. by rewrite Hxy.
  - apply wilder_pos; [done|]. eapply Forall_fmap_impl; [|exact Hd].
    intros d Hd0. cbv beta in *. unfold gain_of. rewrite Q.max_l; lra.
  - apply wilder_zero. eapply Forall_fmap_impl; [|exact Hd].
    intros d Hd0. cbv beta in *. unfold loss_of. rewrite Q.max_r; lra.
  - intros g l Hg Hl. destruct (rsi_of_cases g l) as (_ & H2 & _); [lra | lra |].
    by apply H2.
Qed.

Lemma compute_rsi_falling period c cs :
  period <> 0%nat -> falling (c :: cs) ->
  exists r, test.compute_rsi (Fin <$> (c :: cs)) period = Ret (NaN :: r) /\
            Forall (fun v => feq v (Fin 0)) r /\ length r = length cs.
Proof.
  intros Hp Hd%falling_deltas. pose proof (period_alpha period) as Ha.
  apply (compute_rsi_all (fun x => x == 0)%Q (fun x => 0 < x)%Q); try done.
  - intros x y Hxy Hy. by rewrite Hxy.
  - intros x y Hxy Hy. by rewrite Hxy.
  - apply wilder_zero. eapply Forall_fmap_impl; [|exact Hd].
    intros d Hd0. cbv beta in *. unfold gain_of. rewrite Q.max_r; lra.
  - apply wilder_pos; [done|]. eapply Forall_fmap_impl; [|exact Hd].
    intros d Hd0. cbv beta in *. unfold loss_of. rewrite Q.max_l; lra.
  - intros g l Hg Hl. destruct (rsi_of_cases g l) as (_ & _ & H3); [lra | lra |].
    specialize (H3 Hl). destruct (rsi_of g l) as [| | |q]; simpl in *; try done.
    rewrite H3, Hg. field. lra.
Qed.

Lemma compute_rsi_flat period c cs :
  period <> 0%nat -> flat (c :: cs) ->
  exists r, test.compute_rsi (Fin <$> (c :: cs)) period = Ret (NaN :: r) /\
            Forall (fun v => v = NaN) r /\ length r = length cs.
Proof.
  intros Hp Hd%flat_deltas.
  apply (compute_rsi_all (fun x => x == 0)%Q (fun x => x == 0)%Q); try done.
  - intros x y Hxy Hy. by rewrite Hxy.
  - intros x y Hxy Hy. by rewrite Hxy.
  - apply wilder_zero. eapply Forall_fmap_impl; [|exact Hd].
    intros d Hd0. cbv beta in *. unfold gain_of. rewrite Q.max_r; lra.
  - apply wilder_zero. eapply Forall_fmap_impl; [|exact Hd].
    intros d Hd0. cbv beta in *. unfold loss_of. rewrite Q.max_r; lra.
  - intros g l Hg Hl. destruct (rsi_of_cases g l) as (H1 & _ & _); [lra | lra |].
    by apply H1.
Qed.

Lemma iloc_last_Forall (P : float -> Prop) x r v :
  P x -> Forall P r -> iloc_last (x :: r) = Ret v -> P v.
Proof.
  intros Hx Hr. unfold iloc_last.
  destruct (last (x :: r)) as [y|] eqn:Hl; [|done]. intros [= <-].
  apply last_Some in Hl as [l' Hl].
  assert (Forall P (x :: r)) as Hall by (by constructor).
  rewrite Hl in Hall. by apply Forall_app in Hall as [_ [? _]%Forall_cons].
Qed.

Lemma iloc_last_Forall_tail (P : float -> Prop) x y r v :
  Forall P (y :: r) -> iloc_last (x :: y :: r) = Ret v -> P v.
Proof.
  intros Hr. unfold iloc_last. rewrite last_cons.
  destruct (last (y :: r)) as [z|] eqn:Hl; [|by apply last_None in Hl].
  intros [= <-]. apply last_Some in Hl as [l' Hl].
  rewrite Hl in Hr. by apply Forall_app in Hr as [_ [? _]%Forall_cons].
Qed.

Lemma rate_of_extreme rsi :
  feq rsi (Fin 100) \/ feq rsi (Fin 0) ->
  feq (round1 (fmul (fdiv (fabs (fsub rsi (Fz 50))) (Fz 50)) (Fz 100))) (Fin 100).
Proof.
  intros Hr. destruct rsi as [| | |q]; simpl in Hr; try tauto.
  unfold Fz. cbn [fsub fadd fneg fabs fdiv].
  change (Qeq_bool (inject_Z 50) 0) with false.
  cbn [fmul round1 feq].
  assert (Qabs (q + - inject_Z 50) == 50)%Q as Habs.
  { destruct Hr as [Hq|Hq]; rewrite Hq.
    - by apply Qabs_pos.
    - by rewrite Qabs_neg. }
  rewrite (round_half_even_Qeq _ 1000) by (rewrite Habs; reflexivity).
  reflexivity.
Qed.

(** X22. A series that only rises or only falls saturates the strength:
    on at least two bars with strictly rising or strictly falling closes
    [analyze_symbol] reports the rate 100.0, whatever the direction it
    reports. *)
Theorem monotone_series_rate_100 `{!Externals} (response : test.kline_response)
    (sym : string) (c c' : Q) (cs : list Q)
    (Hget : test.get_klines response = Ret (Fin <$> (c :: c' :: cs)))
    (Hmono : rising (c :: c' :: cs) \/ falling (c :: c' :: cs)) :
  exists signal rate,
    test.analyze_symbol response sym = (sym, signal, rate) /\ feq rate (Fin 100).
Proof.
  destruct (analyze_symbol_scored response sym c (c' :: cs) Hget)
    as (rsi & m & Hrsi & _ & _ & ->).
  eexists _, _. split; [reflexivity|]. apply rate_of_extreme.
  destruct Hmono as [Hm|Hm].
  - destruct (compute_rsi_rising 14 c (c' :: cs)) as (r & Hr & Hall & Hlen);
      [done|done|].
    rewrite Hr in Hrsi. cbn [mbind result_bind] in Hrsi.
    destruct r as [|y r]; [done|]. left.
    exact (iloc_last_Forall_tail _ _ _ _ _ Hall Hrsi).
  - destruct (compute_rsi_falling 14 c (c' :: cs)) as (r & Hr & Hall & Hlen);
      [done|done|].
    rewrite Hr in Hrsi. cbn [mbind result_bind] in Hrsi.
    destruct r as [|y r]; [done|]. right.
    exact (iloc_last_Forall_tail _ _ _ _ _ Hall Hrsi).
Qed.

Lemma monotone_series_rate_100_witness :
  let E := numbers_only (fun _ => Ret (Fin (1 # 2))) in
  let response : test.kline_response :=
    Ret (Some [[JInt 0; JInt 3; JInt 3; JInt 3; JInt 3; JInt 1];
               [JInt 900000; JInt 2; JInt 2; JInt 2; JInt 2; JInt 1];
               [JInt 1800000; JInt 1; JInt 1; JInt 1; JInt 1; JInt 1]]) in
  exists signal rate,
    test.analyze_symbol response "ALT_USDT" = ("ALT_USDT", signal, rate) /\
    feq rate (Fin 100).
Proof.
  intros E response.
  apply (@monotone_series_rate_100 E response "ALT_USDT" 3 2 [1]%Q eq_refl).
  right. simpl. repeat split; reflexivity.
Defined.

(** ** A market that does not move *)

Lemma ewm_mean_fin a xs :
  exists out, ewm_mean (Fin a) (Fin <$> xs) = Fin <$> out /\
              Forall2 Qeq out (wilder a xs).
Proof.
  destruct xs as [|x xs]; [by exists []|].
  destruct (ewm_from_fin a x x xs xs) as (out & Hout & Hall).
  - reflexivity.
  - apply Forall_Forall2_diag, Forall_forall. intros y _. reflexivity.
  - exists (x :: out). rewrite !fmap_cons. cbn [ewm_mean wilder].
    rewrite Hout. split; [done|]. constructor; [reflexivity | done].
Qed.

Lemma wilder_from_const a c y xs :
  (y == c)%Q -> Forall (fun x => x == c)%Q xs ->
  Forall (fun x => x == c)%Q (wilder_from a y xs).
Proof.
  intros Hy Hxs. revert y Hy.
  induction Hxs as [|x xs Hx Hxs IH]; intros y Hy; cbn [wilder_from];
    constructor.
  - rewrite Hy, Hx. ring.
  - apply IH. rewrite Hy, Hx. ring.
Qed.

Lemma wilder_const a c xs :
  Forall (fun x => x == c)%Q xs -> Forall (fun x => x == c)%Q (wilder a xs).
Proof.
  intros [|x xs' Hx Hxs]; cbn [wilder]; constructor; [done|].
  by apply wilder_from_const.
Qed.

Lemma flat_const c cs : flat (c :: cs) -> Forall (fun x => x == c)%Q (c :: cs).
Proof.
  revert c. induction cs as [|c' cs IH]; intros c Hf.
  - constructor; [reflexivity | constructor].
  - destruct Hf as [Hc Hf]. constructor; [reflexivity|].
    eapply Forall_impl; [exact (IH c' Hf)|]. intros x Hx. cbv beta in *.
    by rewrite Hx.
Qed.

Lemma ewm_mean_const a c xs :
  Forall (fun x => x == c)%Q xs ->
  exists out, ewm_mean (Fin a) (Fin <$> xs) = Fin <$> out /\
              Forall (fun x => x == c)%Q out /\ length out = length xs.
Proof.
  intros Hxs. destruct (ewm_mean_fin a xs) as (out & Hout & Hall).
  exists out. split; [done|]. split.
  - eapply Forall2_Qeq_Forall; [|exact Hall|by apply wilder_const].
    intros x y Hxy Hy. by rewrite Hxy.
  - by rewrite (Forall2_length _ _ _ Hall), wilder_length.
Qed.

Lemma zip_with_Qminus_const c l1 l2 :
  Forall (fun x => x == c)%Q l1 -> Forall (fun x => x == c)%Q l2 ->
  Forall (fun x => x == 0)%Q (zip_with Qminus l1 l2).
Proof.
  intros H1. revert l2. induction H1 as [|x l1 Hx H1 IH]; intros l2 H2;
    [constructor|].
  destruct H2 as [|y l2 Hy H2]; [constructor|].
  cbn [zip_with]. constructor; [rewrite Hx, Hy; ring | by apply IH].
Qed.

Lemma compute_macd_diff_flat c cs :
  flat (c :: cs) ->
  exists D, test.compute_macd_diff (Fin <$> (c :: cs)) = Fin <$> D /\
            Forall (fun x => x == 0)%Q D.
Proof.
  intros Hc%flat_const. unfold test.compute_macd_diff, test.span_alpha.
  destruct (ewm_mean_const (2 # (12 + 1)) c (c :: cs) Hc) as (F & -> & HF & _).
  destruct (ewm_mean_const (2 # (26 + 1)) c (c :: cs) Hc) as (S & -> & HS & _).
  rewrite zip_with_fsub_fin.
  pose proof (zip_with_Qminus_const c F S HF HS) as HM.
  destruct (ewm_mean_const (2 # (9 + 1)) 0 _ HM) as (G & -> & HG & _).
  rewrite zip_with_fsub_fin. eexists. split; [reflexivity|].
  by apply (zip_with_Qminus_const 0).
Qed.

(** X23. A market that does not move gets a direction and no strength: on
    a series of equal closes, of whatever length, [analyze_symbol] reports
    the short direction with the rate NaN; no exception is raised, so the
    default of the [except] branch is not what is reported. *)
Theorem flat_series_short_nan `{!Externals} (response : test.kline_response)
    (sym : string) (c : Q) (cs : list Q)
    (Hget : test.get_klines response = Ret (Fin <$> (c :: cs)))
    (Hflat : flat (c :: cs)) :
  test.analyze_symbol response sym = (sym, "숏", NaN) /\
  test.analyze_symbol response sym <> test.analyze_symbol (Raise TimeoutError) sym.
Proof.
  destruct (analyze_symbol_scored response sym c cs Hget)
    as (rsi & m & Hrsi & Hm & _ & Ha).
  destruct (compute_rsi_flat 14 c cs) as (r & Hr & Hall & _); [done|done|].
  rewrite Hr in Hrsi. cbn [mbind result_bind] in Hrsi.
  apply (iloc_last_Forall (fun v => v = NaN)) in Hrsi; [|done|done]. subst rsi.
  destruct (compute_macd_diff_flat c cs Hflat) as (D & HD & HD0).
  rewrite HD in Hm.
  assert (exists d, m = Fin d /\ (d == 0)%Q) as (d & -> & Hd).
  { unfold iloc_last in Hm. destruct (last (Fin <$> D)) as [y|] eqn:Hl; [|done].
    inversion Hm; subst y. rewrite fmap_last in Hl.
    destruct (last D) as [d|] eqn:HlD; [|done]. inversion Hl; subst m.
    exists d. split; [done|]. apply last_Some in HlD as [l' ->].
    by apply Forall_app in HD0 as [_ [? _]%Forall_cons]. }
  assert (test.analyze_symbol response sym = (sym, "숏", NaN)) as Hres.
  { rewrite Ha. unfold fgt, Fz. change (inject_Z 0) with 0%Q.
    destruct (Qlt_le_dec 0 d); [lra | done]. }
  split; [done|]. rewrite Hres. done.
Qed.

Lemma flat_series_short_nan_witness :
  let E := numbers_only (fun _ => Ret (Fin (1 # 2))) in
  let response : test.kline_response :=
    Ret (Some [[JInt 0; JInt 5; JInt 5; JInt 5; JInt 5; JInt 1];
               [JInt 900000; JInt 5; JInt 5; JInt 5; JInt 5; JInt 1];
               [JInt 1800000; JInt 5; JInt 5; JInt 5; JInt 5; JInt 1]]) in
  test.analyze_symbol response "ALT_USDT" = ("ALT_USDT", "숏", NaN).
Proof.
  intros E response.
  apply (@flat_series_short_nan E response "ALT_USDT" 5 [5; 5]%Q eq_refl).
  simpl. repeat split; reflexivity.
Defined.
